(** * A round-robin TCP forwarder (lb.py): model and verification

    The program is one accept loop.  For each accepted client it reads a
    two-byte request with [read_n], picks the backend under the cursor
    [rr_index], advances the cursor, opens a socket to that backend, forwards
    the request with [sendall], performs one [recv] of up to 4096 bytes and
    relays the chunk to the client with [sendall].

    The embedding is an I/O monad of our own: a computation takes the program
    state together with the far ends of its sockets, and returns a value or a
    raised exception, the new state, and the socket calls it made, in order.
    The network is data: each socket has a [wire] that fixes what its [recv]
    calls will deliver and how much each write accepts, so that every run of
    the loop over a finite sequence of incoming connections can be evaluated. *)

From Stdlib Require Import List ZArith Lia Bool Arith.
From Stdlib Require String.
From Equations Require Import Equations.
Import ListNotations.

Set Implicit Arguments.

Import String.StringSyntax.
Delimit Scope string_scope with string.

Definition string := String.string.

(** ** Data *)

Definition byte := Byte.byte.
Definition bytes := list byte.

(** A backend address, [(host, port)]. *)
Definition addr := (string * Z)%type.

(** Lines 5-9: the backend pool. *)
Definition servers : list addr :=
  [ ("192.168.0.101"%string, 80%Z);
    ("192.168.0.102"%string, 80%Z);
    ("192.168.0.103"%string, 80%Z) ].

(** The exceptions the statements of the loop body can raise.  All three are
    subclasses of Python's [Exception]; socket failures are [OSError]s. *)
Inductive exn :=
| IndexError
| ZeroDivisionError
| OSError (msg : string).

(** [str(e)], as interpolated by the f-string of line 53. *)
Definition str (e : exn) : string :=
  match e with
  | IndexError => "list index out of range"%string
  | ZeroDivisionError => "integer modulo by zero"%string
  | OSError msg => msg
  end.

Inductive result (A : Type) :=
| Ok (a : A)
| Raise (e : exn).
Arguments Raise {A} e.

(** The two socket variables of [main]; the number is the iteration of the
    accept loop that created the socket, counted from 0. *)
Inductive sock :=
| Client (i : nat)
| Serv (i : nat).

Definition sock_eqb (s t : sock) : bool :=
  match s, t with
  | Client i, Client j => Nat.eqb i j
  | Serv i, Serv j => Nat.eqb i j
  | _, _ => false
  end.

(** ** The network

    Scope.  Every blocking call returns or raises: a peer that stays silent
    for ever, on which the program would hang, is not a behaviour of the
    model.  The calls that fail are the ones on a connection ([recv],
    [connect], the writes of [sendall]); creating a socket, closing one,
    printing and accepting succeed, and binding the listening socket is
    taken to have succeeded.

    What a socket will receive: segments in arrival order.  [RxError] is a
    failure of the connection at that point (a reset, say); the end of the
    list is the orderly close of the peer, on which [recv] returns [b""]. *)
Inductive rx_item :=
| Segment (bs : bytes)
| RxError (msg : string).

(** What the next writes on a socket do: accept at most [k] bytes, or fail.
    Once the list is used up a write accepts everything it is offered. *)
Inductive tx_item :=
| Accepts (k : positive)
| TxError (msg : string).

Record wire := mkWire {
  rx : list rx_item;
  tx : list tx_item
}.

(** A backend as seen from one connection attempt. *)
Record backend_peer := mkBackend {
  connect_error : option string;
  backend_wire : wire
}.

(** One incoming connection: the client's wire, and what each backend
    address would do if it were contacted while this client is served. *)
Record conn_env := mkConn {
  client_wire : wire;
  backends : addr -> backend_peer
}.

(** ** State and observable calls *)

Record state := mkState {
  g_servers : list addr;           (* the global [servers] *)
  rr_index : Z;                    (* the local [rr_index] of [main] *)
  client_peer : wire;              (* far end of [client] *)
  serv_peer : wire;                (* far end of [serv] *)
  network : addr -> backend_peer   (* the backends, for the current client *)
}.

Inductive event :=
| EvListen (a : addr) (backlog : Z)
| EvAccept (i : nat)
| EvRecv (s : sock) (bufsize : nat) (r : result bytes)
| EvSocket (s : sock)
| EvConnect (s : sock) (a : addr) (r : result unit)
| EvSend (s : sock) (offered : bytes) (r : result nat)
| EvClose (s : sock)
| EvPrint (line : string).

Definition trace := list event.

(** ** The I/O monad *)

Definition io (A : Type) := state -> result A * state * trace.

Definition ret {A} (a : A) : io A := fun st => (Ok a, st, []).

Definition bind {A B} (m : io A) (k : A -> io B) : io B :=
  fun st =>
    match m st with
    | (Ok a, st1, ev1) =>
        let '(r, st2, ev2) := k a st1 in (r, st2, ev1 ++ ev2)
    | (Raise e, st1, ev1) => (Raise e, st1, ev1)
    end.

Declare Scope io_scope.
Delimit Scope io_scope with io.
Notation "x <- m ;; k" := (bind m (fun x => k))
  (at level 61, m at next level, right associativity) : io_scope.
Notation "' p <- m ;; k" := (bind m (fun x => let 'p := x in k))
  (at level 61, p pattern, m at next level, right associativity) : io_scope.
Notation "m ;; k" := (bind m (fun _ => k))
  (at level 61, right associativity) : io_scope.
Open Scope io_scope.

Definition lift {A} (r : result A) : io A := fun st => (r, st, []).

Definition emit (e : event) : io unit := fun st => (Ok tt, st, [e]).

Definition get_servers : io (list addr) := fun st => (Ok (g_servers st), st, []).

Definition get_rr_index : io Z := fun st => (Ok (rr_index st), st, []).

Definition set_rr_index (v : Z) : io unit :=
  fun st =>
    (Ok tt,
     mkState (g_servers st) v (client_peer st) (serv_peer st) (network st),
     []).

(** ** Python primitives *)

(** [l[i]] on a list: a negative index counts from the end. *)
Definition getitem {A} (l : list A) (i : Z) : result A :=
  let n := Z.of_nat (length l) in
  let j := if (i <? 0)%Z then (i + n)%Z else i in
  if ((j <? 0) || (n <=? j))%Z then Raise IndexError
  else match nth_error l (Z.to_nat j) with
       | Some x => Ok x
       | None => Raise IndexError
       end.

(** [a % b] on integers: the sign follows the divisor, as [Z.modulo] does. *)
Definition py_mod (a b : Z) : result Z :=
  if (b =? 0)%Z then Raise ZeroDivisionError else Ok (a mod b)%Z.

Definition len {A} (l : list A) : Z := Z.of_nat (length l).

(** ** Socket primitives *)

Definition peer_of (s : sock) (st : state) : wire :=
  match s with
  | Client _ => client_peer st
  | Serv _ => serv_peer st
  end.

Definition set_peer (s : sock) (w : wire) (st : state) : state :=
  match s with
  | Client _ => mkState (g_servers st) (rr_index st) w (serv_peer st) (network st)
  | Serv _ => mkState (g_servers st) (rr_index st) (client_peer st) w (network st)
  end.

(** One [recv(bufsize)] on an incoming stream: at most [bufsize] bytes of the
    first segment that has any, the rest of it staying queued. *)
Fixpoint recv_rx (l : list rx_item) (bufsize : nat) : result bytes * list rx_item :=
  match l with
  | [] => (Ok [], [])
  | RxError msg :: l' => (Raise (OSError msg), l')
  | Segment [] :: l' => recv_rx l' bufsize
  | Segment bs :: l' =>
      (Ok (firstn bufsize bs),
       match skipn bufsize bs with
       | [] => l'
       | more => Segment more :: l'
       end)
  end.

Definition recv (s : sock) (bufsize : nat) : io bytes :=
  fun st =>
    let w := peer_of s st in
    let '(r, l') := recv_rx (rx w) bufsize in
    (r, set_peer s (mkWire l' (tx w)) st, [EvRecv s bufsize r]).

(** One write of [buf]: the number of bytes the socket accepted. *)
Definition send_tx (l : list tx_item) (buf : bytes) : result nat * list tx_item :=
  match l with
  | [] => (Ok (length buf), [])
  | Accepts k :: l' => (Ok (Nat.min (Pos.to_nat k) (length buf)), l')
  | TxError msg :: l' => (Raise (OSError msg), l')
  end.

Definition send (s : sock) (buf : bytes) : io nat :=
  fun st =>
    let w := peer_of s st in
    let '(r, l') := send_tx (tx w) buf in
    (r, set_peer s (mkWire (rx w) l') st, [EvSend s buf r]).

(** Events made before a computation's own are put in front of its trace. *)
Definition prepend {A} (ev : trace) (x : result A * state * trace)
  : result A * state * trace :=
  let '(r, st, ev') := x in (r, st, ev ++ ev').

(** A value together with the equation that names it, for [with] clauses
    whose termination proof needs to know what was matched. *)
Definition inspect {A} (a : A) : {b : A | a = b} := exist _ a eq_refl.

(** [sock.sendall(buf)]: Python's library call, which repeats the write on
    what is left of the buffer until all of it has been accepted, or a write
    fails.  It returns [None]. *)
Equations sendall_loop (s : sock) (buf : bytes) (st : state)
  : result unit * state * trace by wf (length buf) lt :=
sendall_loop s buf st with inspect (send s buf st) := {
  | exist _ (Raise e, st1, ev1) _ := (Raise e, st1, ev1);
  | exist _ (Ok n, st1, ev1) Hsend with inspect (skipn n buf) := {
      | exist _ [] _ := (Ok tt, st1, ev1);
      | exist _ (b :: rest) Hrest :=
          prepend ev1 (sendall_loop s (b :: rest) st1) } }.
Next Obligation.
  (* a write on a non-empty buffer accepts at least one byte *)
  assert (Hn : 0 < n).
  { unfold send, send_tx in Hsend.
    destruct (tx (peer_of s st)) as [|[k|msg] l']; inversion Hsend; subst;
      try pose proof (Pos2Nat.is_pos k);
      destruct buf; simpl in *; try discriminate; try lia.
    rewrite Nat.min_0_r in Hrest. discriminate. }
  assert (length buf <> 0)
    by (destruct buf; [destruct n|]; simpl in *; congruence).
  assert (Hlen : length (skipn n buf) = S (length rest))
    by (rewrite Hrest; reflexivity).
  rewrite length_skipn in Hlen. simpl. lia.
Qed.

Definition sendall (s : sock) (buf : bytes) : io unit := sendall_loop s buf.

(** [socket.socket(AF_INET, SOCK_STREAM)] bound to [serv]. *)
Definition socket_new (s : sock) : io unit := emit (EvSocket s).

(** [serv.connect((host, port))]: on success [serv] talks to that backend. *)
Definition connect (s : sock) (a : addr) : io unit :=
  fun st =>
    let b := network st a in
    match connect_error b with
    | Some msg =>
        (Raise (OSError msg), st, [EvConnect s a (Raise (OSError msg))])
    | None =>
        (Ok tt, set_peer s (backend_wire b) st, [EvConnect s a (Ok tt)])
    end.

Definition close (s : sock) : io unit := emit (EvClose s).

Definition print (line : string) : io unit := emit (EvPrint line).

(** [listen.accept()] returning the [i]-th incoming connection. *)
Definition accept (i : nat) (env : conn_env) : io unit :=
  fun st =>
    (Ok tt,
     mkState (g_servers st) (rr_index st) (client_wire env) (serv_peer st)
             (backends env),
     [EvAccept i]).

(** ** [read_n] (lines 11-18)

    [n] is a byte count.  Each round asks for what is still missing, so the
    loop can only stop on a full buffer, an empty chunk, or an exception. *)
Equations read_n_loop (conn : sock) (n : nat) (data : bytes) (st : state)
  : result bytes * state * trace by wf (n - length data) lt :=
read_n_loop conn n data st with lt_dec (length data) n := {
  | right _ := (Ok data, st, []);
  | left Hlt with recv conn (n - length data) st := {
      | (Raise e, st1, ev1) := (Raise e, st1, ev1);
      | (Ok [], st1, ev1) := (Ok data, st1, ev1);
      | (Ok (b :: chunk), st1, ev1) :=
          prepend ev1 (read_n_loop conn n (data ++ b :: chunk) st1) } }.
Next Obligation.
  rewrite length_app. simpl. lia.
Qed.

Definition read_n (conn : sock) (n : nat) : io bytes := read_n_loop conn n [].

(** ** The loop body (lines 30-55) *)

(** How the [try] block is left when no exception escapes it: by falling off
    its end, or by the [continue] of line 35. *)
Inductive control :=
| Normal
| Continue.

(** [try: body / except Exception as e: handler e / finally: final].  An
    exception of the body is handed to the handler; the [finally] clause runs
    on every way out, the [continue] included; an exception of the handler or
    of the [finally] clause propagates. *)
Definition try_except_finally (body : io control) (handler : exn -> io unit)
    (final : io unit) : io control :=
  fun st =>
    match body st with
    | (Ok c, st1, ev1) =>
        match final st1 with
        | (Ok _, st2, ev2) => (Ok c, st2, ev1 ++ ev2)
        | (Raise e, st2, ev2) => (Raise e, st2, ev1 ++ ev2)
        end
    | (Raise e, st1, ev1) =>
        match handler e st1 with
        | (Ok _, st2, ev2) =>
            match final st2 with
            | (Ok _, st3, ev3) => (Ok Normal, st3, ev1 ++ ev2 ++ ev3)
            | (Raise e', st3, ev3) => (Raise e', st3, ev1 ++ ev2 ++ ev3)
            end
        | (Raise e', st2, ev2) =>
            match final st2 with
            | (Ok _, st3, ev3) => (Raise e', st3, ev1 ++ ev2 ++ ev3)
            | (Raise e'', st3, ev3) => (Raise e'', st3, ev1 ++ ev2 ++ ev3)
            end
        end
    end.

(** Lines 37-51: select a backend and relay one exchange with it. *)
Definition forward (i : nat) (req : bytes) : io control :=
  (* pick next server *)
  srv <- get_servers ;;
  rr <- get_rr_index ;;
  '(host, port) <- lift (getitem srv rr) ;;
  srv' <- get_servers ;;
  next <- lift (py_mod (rr + 1) (len srv')) ;;
  set_rr_index next ;;
  (* forward request *)
  socket_new (Serv i) ;;
  connect (Serv i) (host, port) ;;
  sendall (Serv i) req ;;
  (* read response (up to 4 KB) *)
  resp <- recv (Serv i) 4096 ;;
  (match resp with
   | [] => ret tt
   | _ :: _ => sendall (Client i) resp
   end) ;;
  close (Serv i) ;;
  ret Normal.

(** Lines 32-51, the [try] block of iteration [i]. *)
Definition try_block (i : nat) : io control :=
  req <- read_n (Client i) 2 ;;
  if negb (length req =? 2) then
    close (Client i) ;;
    ret Continue
  else
    forward i req.

(** The f-string of line 53. *)
Definition log_line (e : exn) : string :=
  String.append "[LB] Error: " (str e).

(** Lines 31-55. *)
Definition handle (i : nat) : io control :=
  try_except_finally
    (try_block i)
    (fun e => print (log_line e))
    (close (Client i)).

(** One iteration of [while True]: accept, then handle. *)
Definition iteration (i : nat) (env : conn_env) : io unit :=
  accept i env ;;
  handle i ;;
  ret tt.

(** The accept loop over the connections that arrive, the first of them
    being number [i].  An exception that escapes an iteration ends the loop. *)
Fixpoint accept_loop (i : nat) (envs : list conn_env) : io unit :=
  match envs with
  | [] => ret tt
  | env :: envs' => iteration i env ;; accept_loop (S i) envs'
  end.

(** Lines 20-55. *)
Definition main (envs : list conn_env) : io unit :=
  emit (EvListen ("0.0.0.0"%string, 80%Z) 128) ;;
  print "[LB] Listening on 0.0.0.0:80"%string ;;
  set_rr_index 0 ;;
  accept_loop 0 envs.

(** A peer that sends nothing and takes every write. *)
Definition silent : wire := mkWire [] [].

(** The process before [main] runs, with [srv] as the module's [servers]. *)
Definition boot (srv : list addr) : state :=
  mkState srv 0 silent silent (fun _ => mkBackend None silent).

(** A run of the program over a pool and a sequence of connections. *)
Definition run (srv : list addr) (envs : list conn_env)
  : result unit * state * trace :=
  main envs (boot srv).

Definition outcome_of {A} (x : result A * state * trace) : result A := fst (fst x).
Definition state_of {A} (x : result A * state * trace) : state := snd (fst x).
Definition trace_of {A} (x : result A * state * trace) : trace := snd x.

(** ** What a stream holds *)

(** The bytes that arrive before the stream ends or fails. *)
Fixpoint pending (l : list rx_item) : bytes :=
  match l with
  | [] => []
  | Segment bs :: l' => bs ++ pending l'
  | RxError _ :: _ => []
  end.

(** How the stream stops: [None] for the peer's close, [Some msg] for a
    failure. *)
Fixpoint ending (l : list rx_item) : option string :=
  match l with
  | [] => None
  | Segment _ :: l' => ending l'
  | RxError msg :: _ => Some msg
  end.

(** Whether a buffer of [n] bytes gets through the coming writes of a socket
    without a failure, however many writes that takes. *)
Fixpoint tx_accepts (l : list tx_item) (n : nat) : bool :=
  match l with
  | [] => true
  | Accepts k :: l' =>
      if n <=? Pos.to_nat k then true else tx_accepts l' (n - Pos.to_nat k)
  | TxError _ :: _ => false
  end.

(** A well-formed client delivers its two request bytes. *)
Definition well_formed (env : conn_env) : Prop :=
  2 <= length (pending (rx (client_wire env))).

(** The same, as a test. *)
Definition admitted (env : conn_env) : bool :=
  2 <=? length (pending (rx (client_wire env))).

(** A short client closes after fewer than two bytes. *)
Definition short (env : conn_env) : Prop :=
  length (pending (rx (client_wire env))) < 2 /\
  ending (rx (client_wire env)) = None.

(** The cursor points into the pool. *)
Definition cursor_ok (st : state) : Prop :=
  (0 <= rr_index st < len (g_servers st))%Z.

Definition set_rx (s : sock) (l : list rx_item) (st : state) : state :=
  set_peer s (mkWire l (tx (peer_of s st))) st.

Definition set_tx (s : sock) (l : list tx_item) (st : state) : state :=
  set_peer s (mkWire (rx (peer_of s st)) l) st.

(** ** Reading a trace *)

(** The connection attempts, in order. *)
Definition connects (tr : trace) : list (sock * addr) :=
  flat_map (fun e => match e with EvConnect s a _ => [(s, a)] | _ => [] end) tr.

(** The sockets created towards backends. *)
Definition sockets (tr : trace) : list sock :=
  flat_map (fun e => match e with EvSocket s => [s] | _ => [] end) tr.

Definition accepts (tr : trace) : list nat :=
  flat_map (fun e => match e with EvAccept i => [i] | _ => [] end) tr.

Definition closes (tr : trace) : list sock :=
  flat_map (fun e => match e with EvClose s => [s] | _ => [] end) tr.

Definition prints (tr : trace) : list string :=
  flat_map (fun e => match e with EvPrint l => [l] | _ => [] end) tr.

(** The [recv] calls made on [s]: buffer size and result. *)
Definition recvs (s : sock) (tr : trace) : list (nat * result bytes) :=
  flat_map (fun e => match e with
                     | EvRecv t k r => if sock_eqb s t then [(k, r)] else []
                     | _ => []
                     end) tr.

(** The writes made on [s]: what was offered and the result. *)
Definition sends (s : sock) (tr : trace) : list (bytes * result nat) :=
  flat_map (fun e => match e with
                     | EvSend t buf r => if sock_eqb s t then [(buf, r)] else []
                     | _ => []
                     end) tr.

(** The bytes that [s] accepted, over all the writes made on it. *)
Definition written (s : sock) (tr : trace) : bytes :=
  flat_map (fun e => match e with
                     | EvSend t buf (Ok n) =>
                         if sock_eqb s t then firstn n buf else []
                     | _ => []
                     end) tr.

Definition is_recv_on (s : sock) (e : event) : Prop :=
  match e with EvRecv t _ _ => t = s | _ => False end.

Definition is_send_on (s : sock) (e : event) : Prop :=
  match e with EvSend t _ _ => t = s | _ => False end.

(** Every client accepted in [tr] has been closed in [tr]. *)
Definition all_closed (tr : trace) : Prop :=
  forall i, In (EvAccept i) tr -> In (EvClose (Client i)) tr.

(** The backend under the cursor after [k] selections from cursor 0. *)
Definition backend_at (srv : list addr) (k : nat) : addr :=
  nth (k mod length srv) srv (String.EmptyString, 0%Z).

(** ** Sample connections *)

Definition echo_backend (resp : bytes) : backend_peer :=
  mkBackend None (mkWire [Segment resp] []).

(** A client that sends [req] in one segment and then closes, every backend
    answering [resp]. *)
Definition plain_conn (req resp : bytes) : conn_env :=
  mkConn (mkWire [Segment req] []) (fun _ => echo_backend resp).

(** The same request over sockets that accept one byte per write. *)
Definition trickle_conn : conn_env :=
  mkConn (mkWire [Segment [Byte.x01; Byte.x02]] [Accepts 1])
         (fun _ => mkBackend None
                     (mkWire [Segment [Byte.x41; Byte.x42]] [Accepts 1])).

(** The backend accepts the request and then resets the connection. *)
Definition reset_conn : conn_env :=
  mkConn (mkWire [Segment [Byte.x01; Byte.x02]] [])
         (fun _ => mkBackend None (mkWire [RxError "reset"%string] [])).

(** No backend can be reached. *)
Definition refused_conn : conn_env :=
  mkConn (mkWire [Segment [Byte.x01; Byte.x02]] [])
         (fun _ => mkBackend (Some "refused"%string) silent).

(** The four clients of the usual scenario. *)
Definition four_clients : list conn_env :=
  [ plain_conn [Byte.x01; Byte.x02] [Byte.x41];
    plain_conn [Byte.x03; Byte.x04] [Byte.x42];
    plain_conn [Byte.x05; Byte.x06] [Byte.x43];
    plain_conn [Byte.x07; Byte.x08] [Byte.x44] ].

(** ** Vocabulary of the proofs *)

(** What the loop returns, what it leaves in the stream, and what it calls. *)
Definition read_n_post (conn : sock) (n : nat) (data : bytes) (st : state)
    (res : result bytes * state * trace) : Prop :=
  exists r l' ev,
    res = (r, set_rx conn l' st, ev) /\
    Forall (is_recv_on conn) ev /\
    match r with
    | Ok d =>
        exists got,
          d = data ++ got /\
          pending (rx (peer_of conn st)) = got ++ pending l' /\
          ending l' = ending (rx (peer_of conn st)) /\
          (length data <= n -> length d <= n) /\
          (length d < n -> l' = [])
    | Raise e =>
        exists msg,
          e = OSError msg /\
          ending (rx (peer_of conn st)) = Some msg /\
          length data + length (pending (rx (peer_of conn st))) < n
    end.

(** [sendall] touches only the write side of its socket and makes only
    writes on it, the first of them offered the whole buffer.  When it
    returns, the socket has accepted exactly the buffer; when it raises, a
    prefix of it. *)
Definition sendall_post (s : sock) (buf : bytes) (st : state)
    (res : result unit * state * trace) : Prop :=
  exists r l' ev,
    res = (r, set_tx s l' st, ev) /\
    Forall (is_send_on s) ev /\
    (exists r0 more, sends s ev = (buf, r0) :: more) /\
    match r with
    | Ok _ => written s ev = buf
    | Raise e =>
        exists msg rest, e = OSError msg /\ buf = written s ev ++ rest
    end.

(** The state once the cursor has moved on (line 39). *)
Definition advance (st : state) : state :=
  mkState (g_servers st) ((rr_index st + 1) mod len (g_servers st))
          (client_peer st) (serv_peer st) (network st).

(** The state once [serv] is connected to the backend at [a] (line 43). *)
Definition connected (i : nat) (a : addr) (st : state) : state :=
  set_peer (Serv i) (backend_wire (network st a)) (advance st).

(** Lines 42-43 when the backend is reached. *)
Definition opening (i : nat) (a : addr) : trace :=
  [EvSocket (Serv i); EvConnect (Serv i) a (Ok tt)].

(** The ways through lines 37-51, each with its result, state and calls. *)
Inductive forwarded (i : nat) (req : bytes) (st : state)
  : result control * state * trace -> Prop :=
| fwd_index e :
    getitem (g_servers st) (rr_index st) = Raise e ->
    forwarded i req st (Raise e, st, [])
| fwd_connect a msg :
    getitem (g_servers st) (rr_index st) = Ok a ->
    connect_error (network st a) = Some msg ->
    forwarded i req st
      (Raise (OSError msg), advance st,
       [EvSocket (Serv i); EvConnect (Serv i) a (Raise (OSError msg))])
| fwd_send a e st1 ev1 :
    getitem (g_servers st) (rr_index st) = Ok a ->
    connect_error (network st a) = None ->
    sendall (Serv i) req (connected i a st) = (Raise e, st1, ev1) ->
    forwarded i req st (Raise e, st1, opening i a ++ ev1)
| fwd_recv a st1 ev1 e st2 ev2 :
    getitem (g_servers st) (rr_index st) = Ok a ->
    connect_error (network st a) = None ->
    sendall (Serv i) req (connected i a st) = (Ok tt, st1, ev1) ->
    recv (Serv i) 4096 st1 = (Raise e, st2, ev2) ->
    forwarded i req st (Raise e, st2, opening i a ++ ev1 ++ ev2)
| fwd_empty a st1 ev1 st2 ev2 :
    getitem (g_servers st) (rr_index st) = Ok a ->
    connect_error (network st a) = None ->
    sendall (Serv i) req (connected i a st) = (Ok tt, st1, ev1) ->
    recv (Serv i) 4096 st1 = (Ok [], st2, ev2) ->
    forwarded i req st
      (Ok Normal, st2, opening i a ++ ev1 ++ ev2 ++ [EvClose (Serv i)])
| fwd_reply_fail a st1 ev1 b resp st2 ev2 e st3 ev3 :
    getitem (g_servers st) (rr_index st) = Ok a ->
    connect_error (network st a) = None ->
    sendall (Serv i) req (connected i a st) = (Ok tt, st1, ev1) ->
    recv (Serv i) 4096 st1 = (Ok (b :: resp), st2, ev2) ->
    sendall (Client i) (b :: resp) st2 = (Raise e, st3, ev3) ->
    forwarded i req st (Raise e, st3, opening i a ++ ev1 ++ ev2 ++ ev3)
| fwd_reply a st1 ev1 b resp st2 ev2 st3 ev3 :
    getitem (g_servers st) (rr_index st) = Ok a ->
    connect_error (network st a) = None ->
    sendall (Serv i) req (connected i a st) = (Ok tt, st1, ev1) ->
    recv (Serv i) 4096 st1 = (Ok (b :: resp), st2, ev2) ->
    sendall (Client i) (b :: resp) st2 = (Ok tt, st3, ev3) ->
    forwarded i req st
      (Ok Normal, st3,
       opening i a ++ ev1 ++ ev2 ++ ev3 ++ [EvClose (Serv i)]).

(** The state once [accept] has returned the next connection. *)
Definition accepted (env : conn_env) (st : state) : state :=
  mkState (g_servers st) (rr_index st) (client_wire env) (serv_peer st)
          (backends env).

(** What the [except] clause adds to the trace. *)
Definition logged {A} (r : result A) : trace :=
  match r with
  | Ok _ => []
  | Raise e => [EvPrint (log_line e)]
  end.

(** The ways through the [try] block. *)
Inductive tried (i : nat) (st : state)
  : result control * state * trace -> Prop :=
| tried_error e st1 ev1 :
    read_n (Client i) 2 st = (Raise e, st1, ev1) ->
    tried i st (Raise e, st1, ev1)
| tried_short req st1 ev1 :
    read_n (Client i) 2 st = (Ok req, st1, ev1) ->
    length req <> 2 ->
    tried i st (Ok Continue, st1, ev1 ++ [EvClose (Client i)])
| tried_forward req st1 ev1 r st2 ev2 :
    read_n (Client i) 2 st = (Ok req, st1, ev1) ->
    length req = 2 ->
    forwarded i req st1 (r, st2, ev2) ->
    tried i st (r, st2, ev1 ++ ev2).

(** Wherever an accept occurs in [tr], every client accepted before it has
    been closed before it. *)
Definition closed_at_accepts (tr : trace) : Prop :=
  forall pre j post, tr = pre ++ EvAccept j :: post -> all_closed pre.

(** The reading of "one best-effort write": at most one write is made on
    the socket. *)
Definition single_write (s : sock) (tr : trace) : Prop :=
  length (sends s tr) <= 1.

(** A run over a short client, a failing backend and a plain client. *)
Definition mixed_clients : list conn_env :=
  [ plain_conn [Byte.x01] [];
    reset_conn;
    plain_conn [Byte.x05; Byte.x06] [Byte.x43] ].

(** A backend whose answer does not fit the 4096-byte buffer. *)
Definition long_conn : conn_env :=
  mkConn (mkWire [Segment [Byte.x01; Byte.x02]] [])
         (fun _ => mkBackend None
                     (mkWire [Segment (repeat Byte.x41 (100 * 100))] [])).

(** ** Further vocabulary *)

(** The bytes handed over by a sequence of [recv] calls. *)
Definition received (l : list (nat * result bytes)) : bytes :=
  flat_map (fun p => match snd p with Ok b => b | Raise _ => [] end) l.

(** The banner of line 26. *)
Definition banner : string := "[LB] Listening on 0.0.0.0:80"%string.

(** A client whose two bytes arrive in two segments. *)
Definition split_conn : conn_env :=
  mkConn (mkWire [Segment [Byte.x01]; Segment [Byte.x02]] [])
         (fun _ => echo_backend [Byte.x41]).

(** A client whose connection fails after one byte. *)
Definition broken_conn : conn_env :=
  mkConn (mkWire [Segment [Byte.x01]; RxError "reset by peer"%string] [])
         (fun _ => echo_backend [Byte.x41]).

(** A line that the [except] clause can have printed, as text. *)
Definition error_line (line : string) : Prop :=
  line = "[LB] Error: list index out of range"%string \/
  exists msg, line = String.append "[LB] Error: " msg.

(** At most one line, and that one an error line. *)
Definition one_error_at_most (lines : list string) : Prop :=
  length lines <= 1 /\ Forall error_line lines.

(** Between an accept and the next one, that is among the calls made for one
    connection, at most one line is printed, and it is an error line. *)
Definition per_connection_output (tr : trace) : Prop :=
  forall pre j mid post,
    tr = pre ++ EvAccept j :: mid ++ post ->
    accepts mid = [] ->
    one_error_at_most (prints mid).

(** * Verification *)

(** ** State updates *)

Lemma set_rx_same s st : set_rx s (rx (peer_of s st)) st = st.
Proof.
  destruct st as [g r [cr ct] [sr stx] nw], s; reflexivity.
Qed.

Lemma set_rx_set_rx s l l' st : set_rx s l' (set_rx s l st) = set_rx s l' st.
Proof. destruct s; reflexivity. Qed.

Lemma set_tx_set_tx s l l' st : set_tx s l' (set_tx s l st) = set_tx s l' st.
Proof. destruct s; reflexivity. Qed.

Lemma rx_set_rx s l st : rx (peer_of s (set_rx s l st)) = l.
Proof. destruct s; reflexivity. Qed.

Lemma sock_eqb_refl s : sock_eqb s s = true.
Proof. destruct s; simpl; apply Nat.eqb_refl. Qed.

(** ** Traces made of one kind of call *)

Lemma flat_map_nil_on {A} (P : event -> Prop) (f : event -> list A) tr :
  Forall P tr -> (forall e, P e -> f e = []) -> flat_map f tr = [].
Proof.
  intros Hall Hf. induction Hall as [|e tr He _ IH]; simpl.
  - reflexivity.
  - rewrite (Hf e He), IH. reflexivity.
Qed.

Ltac silent_on H :=
  apply (flat_map_nil_on _ H);
  intros [] He; simpl in He; try contradiction; try reflexivity.

Section OneKind.
Variables (s : sock) (tr : trace).

Section Recv.
Hypothesis H : Forall (is_recv_on s) tr.

Lemma recv_connects : connects tr = [].   Proof. silent_on H. Qed.
Lemma recv_sockets : sockets tr = [].     Proof. silent_on H. Qed.
Lemma recv_accepts : accepts tr = [].     Proof. silent_on H. Qed.
Lemma recv_closes : closes tr = [].       Proof. silent_on H. Qed.
Lemma recv_prints : prints tr = [].       Proof. silent_on H. Qed.
Lemma recv_sends t : sends t tr = [].     Proof. silent_on H. Qed.
Lemma recv_written t : written t tr = []. Proof. silent_on H. Qed.
Lemma recv_recvs_other t : sock_eqb t s = false -> recvs t tr = [].
Proof. intro Ht. silent_on H. subst. rewrite Ht. reflexivity. Qed.
End Recv.

Section Send.
Hypothesis H : Forall (is_send_on s) tr.

Lemma send_connects : connects tr = [].   Proof. silent_on H. Qed.
Lemma send_sockets : sockets tr = [].     Proof. silent_on H. Qed.
Lemma send_accepts : accepts tr = [].     Proof. silent_on H. Qed.
Lemma send_closes : closes tr = [].       Proof. silent_on H. Qed.
Lemma send_prints : prints tr = [].       Proof. silent_on H. Qed.
Lemma send_recvs t : recvs t tr = [].     Proof. silent_on H. Qed.
Lemma send_sends_other t : sock_eqb t s = false -> sends t tr = [].
Proof. intro Ht. silent_on H. subst. rewrite Ht. reflexivity. Qed.
Lemma send_written_other t : sock_eqb t s = false -> written t tr = [].
Proof.
  intro Ht. silent_on H. subst. rewrite Ht. destruct r; reflexivity.
Qed.
End Send.
End OneKind.

(** ** One [recv] on a stream *)

Lemma recv_rx_spec l k :
  0 < k ->
  match recv_rx l k with
  | (Ok chunk, l') =>
      pending l = chunk ++ pending l' /\ ending l' = ending l /\
      length chunk <= k /\ (chunk = [] -> l' = [])
  | (Raise e, l') =>
      exists msg, e = OSError msg /\ ending l = Some msg /\ pending l = []
  end.
Proof.
  intro Hk. induction l as [|[bs|msg] l IH]; simpl.
  - repeat split; auto; simpl; lia.
  - destruct bs as [|b bs].
    + exact IH.
    + repeat split.
      * rewrite <- (firstn_skipn k (b :: bs)) at 1.
        rewrite <- app_assoc. f_equal.
        destruct (skipn k (b :: bs)); reflexivity.
      * destruct (skipn k (b :: bs)); reflexivity.
      * rewrite length_firstn. lia.
      * destruct k; [lia | discriminate].
  - exists msg. repeat split.
Qed.

Lemma recv_unfold s k st :
  recv s k st =
  (fst (recv_rx (rx (peer_of s st)) k),
   set_rx s (snd (recv_rx (rx (peer_of s st)) k)) st,
   [EvRecv s k (fst (recv_rx (rx (peer_of s st)) k))]).
Proof.
  unfold recv, set_rx. destruct (recv_rx (rx (peer_of s st)) k). reflexivity.
Qed.

(** ** [read_n] *)

Lemma read_n_loop_spec conn n data st :
  read_n_post conn n data st (read_n_loop conn n data st).
Proof.
  apply (read_n_loop_elim read_n_post); clear conn n data st.
  - (* the buffer is full *)
    intros conn n data Hge st _.
    exists (Ok data), (rx (peer_of conn st)), []. rewrite set_rx_same.
    repeat split; auto.
    exists []. rewrite app_nil_r. repeat split; auto. lia.
  - (* the peer closed *)
    intros conn n data Hlt st st1 ev1 Hrecv _.
    rewrite recv_unfold in Hrecv.
    pose proof (@recv_rx_spec (rx (peer_of conn st)) (n - length data)) as Hs.
    destruct (recv_rx (rx (peer_of conn st)) (n - length data)) as [r0 l0].
    simpl in Hrecv. inversion Hrecv; subst. clear Hrecv.
    destruct Hs as (Hp & He & _ & Hnil); [lia|].
    exists (Ok data), l0, [EvRecv conn (n - length data) (Ok [])].
    repeat split; auto.
    + repeat constructor.
    + exists []. rewrite app_nil_r. repeat split; auto.
  - (* a chunk arrived *)
    intros conn n data Hlt st b chunk st1 ev1 IH Hrecv _.
    rewrite recv_unfold in Hrecv.
    pose proof (@recv_rx_spec (rx (peer_of conn st)) (n - length data)) as Hs.
    destruct (recv_rx (rx (peer_of conn st)) (n - length data)) as [r0 l0].
    simpl in Hrecv. inversion Hrecv; subst. clear Hrecv.
    destruct Hs as (Hp & He & Hlen & _); [lia|].
    destruct IH as (r & l' & ev & Heq & Hev & Hr).
    rewrite Heq, set_rx_set_rx. rewrite rx_set_rx in Hr.
    exists r, l', (EvRecv conn (n - length data) (Ok (b :: chunk)) :: ev).
    repeat split; auto.
    + constructor; simpl; auto.
    + destruct r as [d|e].
      * destruct Hr as (got & Hd & Hp' & He' & Hn & Hnil).
        exists ((b :: chunk) ++ got). rewrite app_assoc.
        repeat split; auto.
        -- rewrite Hp, Hp', app_assoc. reflexivity.
        -- congruence.
        -- intros _. apply Hn. rewrite length_app. lia.
      * destruct Hr as (msg & Hmsg & He' & Hshort).
        exists msg. repeat split; auto.
        -- congruence.
        -- rewrite Hp. rewrite !length_app in *. lia.
  - (* the connection failed *)
    intros conn n data Hlt st e st1 ev1 Hrecv _.
    rewrite recv_unfold in Hrecv.
    pose proof (@recv_rx_spec (rx (peer_of conn st)) (n - length data)) as Hs.
    destruct (recv_rx (rx (peer_of conn st)) (n - length data)) as [r0 l0].
    simpl in Hrecv. inversion Hrecv; subst. clear Hrecv.
    destruct Hs as (msg & Hmsg & He & Hp); [lia|].
    exists (Raise e), l0, [EvRecv conn (n - length data) (Raise e)].
    repeat split; auto.
    + repeat constructor.
    + exists msg. rewrite Hp. simpl. repeat split; auto. lia.
Qed.

(** ** [send] and [sendall] *)

Lemma send_unfold s buf st :
  send s buf st =
  (fst (send_tx (tx (peer_of s st)) buf),
   set_tx s (snd (send_tx (tx (peer_of s st)) buf)) st,
   [EvSend s buf (fst (send_tx (tx (peer_of s st)) buf))]).
Proof.
  unfold send, set_tx. destruct (send_tx (tx (peer_of s st)) buf). reflexivity.
Qed.

Lemma send_tx_raise l buf e l' :
  send_tx l buf = (Raise e, l') -> exists msg, e = OSError msg.
Proof.
  destruct l as [|[k|msg] l0]; simpl; intro H; inversion H. eauto.
Qed.

Lemma written_app s tr1 tr2 : written s (tr1 ++ tr2) = written s tr1 ++ written s tr2.
Proof. apply flat_map_app. Qed.

Lemma sends_app s tr1 tr2 : sends s (tr1 ++ tr2) = sends s tr1 ++ sends s tr2.
Proof. apply flat_map_app. Qed.

Lemma tx_set_tx s l st : tx (peer_of s (set_tx s l st)) = l.
Proof. destruct s; reflexivity. Qed.

Lemma sendall_loop_spec s buf st :
  sendall_post s buf st (sendall_loop s buf st).
Proof.
  apply (sendall_loop_elim sendall_post); clear s buf st.
  - (* the write failed *)
    intros s buf st e st1 ev1 Hsend _.
    rewrite send_unfold in Hsend.
    destruct (send_tx (tx (peer_of s st)) buf) as [r0 l0] eqn:Htx.
    simpl in Hsend. inversion Hsend; subst. clear Hsend.
    destruct (send_tx_raise _ _ Htx) as [msg ->].
    exists (Raise (OSError msg)), l0, [EvSend s buf (Raise (OSError msg))].
    repeat split; auto.
    + repeat constructor.
    + simpl. rewrite sock_eqb_refl. simpl. eauto.
    + exists msg, buf. auto.
  - (* the whole buffer has been accepted *)
    intros s buf st n Hskip st1 ev1 Hsend _ _.
    rewrite send_unfold in Hsend.
    destruct (send_tx (tx (peer_of s st)) buf) as [r0 l0] eqn:Htx.
    simpl in Hsend. inversion Hsend; subst. clear Hsend.
    exists (Ok tt), l0, [EvSend s buf (Ok n)].
    repeat split; auto.
    + repeat constructor.
    + simpl. rewrite sock_eqb_refl. simpl. eauto.
    + simpl. rewrite sock_eqb_refl, app_nil_r.
      rewrite <- (firstn_skipn n buf) at 2. rewrite Hskip, app_nil_r.
      reflexivity.
  - (* part of it is left: write again *)
    intros s buf st n b rest Hskip st1 ev1 Hsend IH _ _.
    rewrite send_unfold in Hsend.
    destruct (send_tx (tx (peer_of s st)) buf) as [r0 l0] eqn:Htx.
    simpl in Hsend. inversion Hsend; subst. clear Hsend.
    destruct IH as (r & l' & ev & Heq & Hev & _ & Hr).
    rewrite Heq, set_tx_set_tx. simpl.
    exists r, l', (EvSend s buf (Ok n) :: ev).
    repeat split; auto.
    + constructor; simpl; auto.
    + simpl. rewrite sock_eqb_refl. simpl. eauto.
    + assert (Hw : written s (EvSend s buf (Ok n) :: ev) =
                   firstn n buf ++ written s ev)
        by (simpl; rewrite sock_eqb_refl; reflexivity).
      rewrite Hw. destruct r as [[]|e].
      * rewrite Hr, <- Hskip. apply firstn_skipn.
      * destruct Hr as (msg & rest' & -> & Hrest).
        exists msg, rest'. split; auto.
        rewrite <- app_assoc, <- Hrest, <- Hskip. symmetry. apply firstn_skipn.
Qed.

(** ** The paths through one connection *)

Lemma handle_ok i st c st' ev :
  try_block i st = (Ok c, st', ev) ->
  handle i st = (Ok c, st', ev ++ [EvClose (Client i)]).
Proof.
  intro H. unfold handle, try_except_finally. rewrite H. reflexivity.
Qed.

Lemma handle_raise i st e st' ev :
  try_block i st = (Raise e, st', ev) ->
  handle i st =
  (Ok Normal, st', ev ++ [EvPrint (log_line e); EvClose (Client i)]).
Proof.
  intro H. unfold handle, try_except_finally. rewrite H. reflexivity.
Qed.

Lemma getitem_ok_nonempty {A} (l : list A) i a :
  getitem l i = Ok a -> len l <> 0%Z.
Proof.
  unfold getitem, len. destruct l; simpl; [|lia].
  destruct (i <? 0)%Z eqn:Hi; rewrite ?Z.add_0_r.
  - rewrite Hi. discriminate.
  - rewrite Hi. simpl. destruct (0 <=? i)%Z eqn:H0; [discriminate|].
    apply Z.ltb_ge in Hi. apply Z.leb_gt in H0. lia.
Qed.

Lemma getitem_in_range {A} (l : list A) i d :
  (0 <= i < len l)%Z -> getitem l i = Ok (nth (Z.to_nat i) l d).
Proof.
  unfold getitem, len. intros [H0 H1].
  destruct (i <? 0)%Z eqn:Hi; [apply Z.ltb_lt in Hi; lia|]. rewrite Hi.
  replace (Z.of_nat (length l) <=? i)%Z with false
    by (symmetry; apply Z.leb_gt; lia).
  simpl. destruct (nth_error l (Z.to_nat i)) eqn:Hn.
  - f_equal. symmetry. apply nth_error_nth. exact Hn.
  - apply nth_error_None in Hn. lia.
Qed.

Lemma forward_paths i req st : forwarded i req st (forward i req st).
Proof.
  unfold forward.
  cbv [bind get_servers get_rr_index lift set_rr_index socket_new emit ret close].
  destruct (getitem (g_servers st) (rr_index st)) as [[host port]|e] eqn:Hget.
  2: { apply fwd_index. exact Hget. }
  pose proof (getitem_ok_nonempty _ _ Hget) as Hlen.
  unfold py_mod. apply Z.eqb_neq in Hlen. rewrite Hlen. simpl.
  fold (advance st).
  unfold connect.
  change (network (advance st)) with (network st).
  destruct (connect_error (network st (host, port))) as [msg|] eqn:Hc.
  { eapply fwd_connect; eassumption. }
  fold (connected i (host, port) st).
  destruct (sendall (Serv i) req (connected i (host, port) st))
    as [[[[]|e] st1] ev1] eqn:Hs.
  2: { eapply fwd_send; eassumption. }
  destruct (recv (Serv i) 4096 st1) as [[[[|b resp]|e] st2] ev2] eqn:Hr.
  - eapply fwd_empty; eassumption.
  - destruct (sendall (Client i) (b :: resp) st2) as [[[[]|e] st3] ev3] eqn:Hs'.
    + eapply fwd_reply; eassumption.
    + eapply fwd_reply_fail; eassumption.
  - eapply fwd_recv; eassumption.
Qed.

(** One iteration never raises; its trace is the accept, the calls of the
    [try] block, the log line if the block raised, and the close of the
    client. *)
Lemma iteration_unfold i env st :
  iteration i env st =
  (Ok tt,
   state_of (try_block i (accepted env st)),
   EvAccept i ::
     trace_of (try_block i (accepted env st)) ++
     logged (outcome_of (try_block i (accepted env st))) ++
     [EvClose (Client i)]).
Proof.
  unfold iteration, bind, accept. fold (accepted env st).
  destruct (try_block i (accepted env st)) as [[[c|e] st1] ev1] eqn:Ht.
  - rewrite (handle_ok _ _ Ht). simpl. rewrite app_nil_r. reflexivity.
  - rewrite (handle_raise _ _ Ht). simpl. rewrite app_nil_r. reflexivity.
Qed.

Lemma try_block_paths i st : tried i st (try_block i st).
Proof.
  unfold try_block, bind.
  destruct (read_n (Client i) 2 st) as [[[req|e] st1] ev1] eqn:Hr.
  2: { eapply tried_error; eassumption. }
  destruct (length req =? 2) eqn:Hlen; simpl.
  - apply Nat.eqb_eq in Hlen.
    pose proof (forward_paths i req st1) as Hf.
    destruct (forward i req st1) as [[r st2] ev2].
    eapply tried_forward; eassumption.
  - apply Nat.eqb_neq in Hlen.
    eapply tried_short; eassumption.
Qed.

(** ** Observations distribute over concatenation *)

Lemma connects_app t1 t2 : connects (t1 ++ t2) = connects t1 ++ connects t2.
Proof. apply flat_map_app. Qed.

Lemma sockets_app t1 t2 : sockets (t1 ++ t2) = sockets t1 ++ sockets t2.
Proof. apply flat_map_app. Qed.

Lemma accepts_app t1 t2 : accepts (t1 ++ t2) = accepts t1 ++ accepts t2.
Proof. apply flat_map_app. Qed.

Lemma closes_app t1 t2 : closes (t1 ++ t2) = closes t1 ++ closes t2.
Proof. apply flat_map_app. Qed.

Lemma prints_app t1 t2 : prints (t1 ++ t2) = prints t1 ++ prints t2.
Proof. apply flat_map_app. Qed.

Lemma recvs_app s t1 t2 : recvs s (t1 ++ t2) = recvs s t1 ++ recvs s t2.
Proof. apply flat_map_app. Qed.

Create Rewrite HintDb observe.

#[local] Hint Rewrite connects_app sockets_app accepts_app closes_app
  prints_app recvs_app sends_app written_app : observe.

Lemma state_of_prepend {A} ev (x : result A * state * trace) :
  state_of (prepend ev x) = state_of x.
Proof. destruct x as [[r st] ev']. reflexivity. Qed.

Lemma outcome_of_prepend {A} ev (x : result A * state * trace) :
  outcome_of (prepend ev x) = outcome_of x.
Proof. destruct x as [[r st] ev']. reflexivity. Qed.

Lemma trace_of_prepend {A} ev (x : result A * state * trace) :
  trace_of (prepend ev x) = ev ++ trace_of x.
Proof. destruct x as [[r st] ev']. reflexivity. Qed.

(** ** When [sendall] succeeds *)

Lemma sendall_outcome s buf st :
  outcome_of (sendall_loop s buf st) =
  if tx_accepts (tx (peer_of s st)) (length buf) then Ok tt
  else outcome_of (sendall_loop s buf st).
Proof.
  destruct (tx_accepts (tx (peer_of s st)) (length buf)) eqn:Hacc;
    [|reflexivity].
  revert Hacc.
  apply (sendall_loop_elim
           (fun s buf st res =>
              tx_accepts (tx (peer_of s st)) (length buf) = true ->
              outcome_of res = Ok tt)); clear s buf st.
  - intros s buf st e st1 ev1 Hsend _ Hacc.
    rewrite send_unfold in Hsend. unfold send_tx in Hsend.
    destruct (tx (peer_of s st)) as [|[k|msg] l]; simpl in *;
      inversion Hsend. discriminate.
  - reflexivity.
  - intros s buf st n b rest Hskip st1 ev1 Hsend IH _ _ Hacc.
    rewrite outcome_of_prepend. apply IH. clear IH.
    rewrite send_unfold in Hsend. unfold send_tx in Hsend.
    assert (Hlen : length (skipn n buf) = S (length rest))
      by (rewrite Hskip; reflexivity).
    rewrite length_skipn in Hlen.
    destruct (tx (peer_of s st)) as [|[k|msg] l] eqn:Htx; simpl in Hsend;
      inversion Hsend; subst; clear Hsend.
    + lia.
    + rewrite tx_set_tx. simpl in Hacc.
      destruct (length buf <=? Pos.to_nat k) eqn:Hk.
      * apply Nat.leb_le in Hk. lia.
      * apply Nat.leb_gt in Hk.
        replace (length (b :: rest)) with (length buf - Pos.to_nat k)
          by (simpl; lia).
        exact Hacc.
Qed.

Lemma sendall_accepted s buf st :
  tx_accepts (tx (peer_of s st)) (length buf) = true ->
  outcome_of (sendall s buf st) = Ok tt.
Proof.
  intro H. unfold sendall. rewrite sendall_outcome, H. reflexivity.
Qed.

(** ** Proof automation for the paths *)

(** Replace the result of a socket call by what its specification says. *)
Ltac use_read H :=
  let P := fresh "P" in
  let l := fresh "l" in
  let r := fresh "r" in
  let ev := fresh "ev" in
  let Hq := fresh "Hquiet" in
  let Hp := fresh "Hpost" in
  let E1 := fresh "E" in
  let E2 := fresh "E" in
  let E3 := fresh "E" in
  match type of H with
  | read_n ?s ?n ?st = (_, ?st', ?ev') =>
      pose proof (read_n_loop_spec s n [] st) as P;
      unfold read_n in H; rewrite H in P;
      destruct P as (r & l & ev & P & Hq & Hp);
      injection P as E1 E2 E3; subst r st' ev'; clear H
  end.

Ltac use_sendall H :=
  let P := fresh "P" in
  let l := fresh "l" in
  let r := fresh "r" in
  let ev := fresh "ev" in
  let Hq := fresh "Hquiet" in
  let Hf := fresh "Hfirst" in
  let Hp := fresh "Hpost" in
  let Ha := fresh "Hacc" in
  let E1 := fresh "E" in
  let E2 := fresh "E" in
  let E3 := fresh "E" in
  match type of H with
  | sendall ?s ?buf ?st = (_, ?st', ?ev') =>
      pose proof (@sendall_accepted s buf st) as Ha;
      rewrite H in Ha; unfold outcome_of in Ha; simpl fst in Ha;
      pose proof (sendall_loop_spec s buf st) as P;
      unfold sendall in H; rewrite H in P;
      destruct P as (r & l & ev & P & Hq & Hf & Hp);
      injection P as E1 E2 E3; subst r st' ev'; clear H
  end.

Ltac use_recv H :=
  let E1 := fresh "Hchunk" in
  let E2 := fresh "E" in
  let E3 := fresh "E" in
  match type of H with
  | recv ?s ?k ?st = (_, ?st', ?ev') =>
      rewrite recv_unfold in H;
      injection H as E1 E2 E3; subst st' ev'
  end.

Ltac use_calls :=
  repeat match goal with
         | H : read_n _ _ _ = _ |- _ => use_read H
         | H : sendall _ _ _ = _ |- _ => use_sendall H
         | H : recv _ _ _ = _ |- _ => use_recv H
         end.

(** Split an observation along the trace and drop the silent parts. *)
Ltac observe :=
  unfold opening, logged;
  repeat first
    [ progress autorewrite with observe
    | erewrite recv_connects by eassumption
    | erewrite recv_sockets by eassumption
    | erewrite recv_accepts by eassumption
    | erewrite recv_closes by eassumption
    | erewrite recv_prints by eassumption
    | erewrite recv_sends by eassumption
    | erewrite recv_written by eassumption
    | erewrite send_connects by eassumption
    | erewrite send_sockets by eassumption
    | erewrite send_accepts by eassumption
    | erewrite send_closes by eassumption
    | erewrite send_prints by eassumption
    | erewrite send_recvs by eassumption
    | match goal with
      | Hq : Forall (is_recv_on ?s) ?tr |- context [recvs ?t ?tr] =>
          rewrite (@recv_recvs_other _ _ Hq t) by reflexivity
      | Hq : Forall (is_send_on ?s) ?tr |- context [sends ?t ?tr] =>
          rewrite (@send_sends_other _ _ Hq t) by reflexivity
      | Hq : Forall (is_send_on ?s) ?tr |- context [written ?t ?tr] =>
          rewrite (@send_written_other _ _ Hq t) by reflexivity
      end
    | rewrite Nat.eqb_refl
    | rewrite app_nil_r
    | progress simpl ].

(** ** [read_n] in terms of the stream *)

Lemma app_prefix_firstn {A} (p a b : list A) :
  p = a ++ b -> a = firstn (length a) p /\ b = skipn (length a) p.
Proof.
  intros ->. split.
  - rewrite firstn_app, Nat.sub_diag, firstn_all. simpl.
    rewrite app_nil_r. reflexivity.
  - rewrite skipn_app, Nat.sub_diag, skipn_all. reflexivity.
Qed.

(** Enough bytes arrive: exactly the first [n] are read, the rest stay. *)
Lemma read_n_enough s n st :
  n <= length (pending (rx (peer_of s st))) ->
  exists l ev,
    read_n s n st =
      (Ok (firstn n (pending (rx (peer_of s st)))), set_rx s l st, ev) /\
    Forall (is_recv_on s) ev /\
    pending l = skipn n (pending (rx (peer_of s st))).
Proof.
  intro Hn. unfold read_n.
  destruct (read_n_loop_spec s n [] st) as (r & l & ev & Heq & Hev & Hr).
  rewrite Heq. exists l, ev. destruct r as [d|e].
  - destruct Hr as (got & -> & Hp & _ & Hle & Hnil). simpl in *.
    assert (Hlen : length got = n).
    { destruct (Nat.lt_ge_cases (length got) n) as [Hlt|Hge].
      - rewrite (Hnil Hlt) in Hp. simpl in Hp. rewrite app_nil_r in Hp.
        rewrite Hp in Hn. lia.
      - specialize (Hle (Nat.le_0_l n)). lia. }
    destruct (app_prefix_firstn _ _ Hp) as [Hf Hs].
    rewrite Hlen in Hf, Hs. rewrite <- Hf. auto.
  - destruct Hr as (msg & _ & _ & Hlt). simpl in Hlt. lia.
Qed.

(** The peer closes early: everything it sent is returned. *)
Lemma read_n_closed s n st :
  length (pending (rx (peer_of s st))) < n ->
  ending (rx (peer_of s st)) = None ->
  exists ev,
    read_n s n st = (Ok (pending (rx (peer_of s st))), set_rx s [] st, ev) /\
    Forall (is_recv_on s) ev.
Proof.
  intros Hn Hend. unfold read_n.
  destruct (read_n_loop_spec s n [] st) as (r & l & ev & Heq & Hev & Hr).
  rewrite Heq. exists ev. destruct r as [d|e].
  - destruct Hr as (got & -> & Hp & _ & _ & Hnil). simpl in *.
    assert (Hlt : length got < n).
    { rewrite Hp, length_app in Hn. lia. }
    rewrite (Hnil Hlt) in *. simpl in Hp. rewrite app_nil_r in Hp.
    rewrite Hp. auto.
  - destruct Hr as (msg & _ & He & _). congruence.
Qed.

(** The connection fails early: the exception propagates. *)
Lemma read_n_failed s n st msg :
  length (pending (rx (peer_of s st))) < n ->
  ending (rx (peer_of s st)) = Some msg ->
  exists l ev,
    read_n s n st = (Raise (OSError msg), set_rx s l st, ev) /\
    Forall (is_recv_on s) ev.
Proof.
  intros Hn Hend. unfold read_n.
  destruct (read_n_loop_spec s n [] st) as (r & l & ev & Heq & Hev & Hr).
  rewrite Heq. exists l, ev. destruct r as [d|e].
  - destruct Hr as (got & -> & Hp & He & _ & Hnil). simpl in *.
    assert (Hlt : length got < n).
    { rewrite Hp, length_app in Hn. lia. }
    rewrite (Hnil Hlt) in He. simpl in He. congruence.
  - destruct Hr as (msg' & -> & He & _).
    assert (msg' = msg) by congruence. subst. auto.
Qed.

(** ** What every path through the forwarding block has in common *)

Lemma forwarded_frame i req st r st' ev :
  forwarded i req st (r, st', ev) ->
  g_servers st' = g_servers st /\
  network st' = network st /\
  rx (client_peer st') = rx (client_peer st) /\
  accepts ev = [].
Proof.
  intro H. inversion H; subst; use_calls; repeat split; observe;
    try reflexivity.
Qed.

(** Selection: the backend under the cursor is the one contacted, once, and
    the cursor moves on, whatever the exchange does afterwards. *)
Lemma forwarded_selection i req st r st' ev a :
  forwarded i req st (r, st', ev) ->
  getitem (g_servers st) (rr_index st) = Ok a ->
  connects ev = [(Serv i, a)] /\
  sockets ev = [Serv i] /\
  rr_index st' = ((rr_index st + 1) mod len (g_servers st))%Z.
Proof.
  intros H Ha. inversion H; subst; use_calls;
    try congruence;
    match goal with
    | Hb : getitem _ _ = Ok ?b |- _ =>
        assert (b = a) by congruence; subst b
    end;
    repeat split; observe; reflexivity.
Qed.

Lemma forwarded_no_backend i req st r st' ev e :
  forwarded i req st (r, st', ev) ->
  getitem (g_servers st) (rr_index st) = Raise e ->
  r = Raise e /\ st' = st /\ ev = [].
Proof.
  intros H He. inversion H; subst; try congruence.
  assert (e0 = e) by congruence. subst. auto.
Qed.

(** ** What every path through the [try] block has in common *)

Lemma tried_frame i st r st' ev :
  tried i st (r, st', ev) ->
  g_servers st' = g_servers st /\
  network st' = network st /\
  accepts ev = [] /\
  (rr_index st' = rr_index st \/
   rr_index st' = ((rr_index st + 1) mod len (g_servers st))%Z).
Proof.
  intro H. inversion H as [e st1 ev1 Hr | req st1 ev1 Hr Hlen
                          | req st1 ev1 r' st2 ev2 Hr Hlen Hf]; subst.
  - use_calls. repeat split; observe; auto.
  - use_calls. repeat split; observe; auto.
  - destruct (forwarded_frame Hf) as (Hg & Hn & _ & Ha).
    use_calls. simpl in *. repeat split; auto.
    + observe. exact Ha.
    + destruct (getitem (g_servers st) (rr_index st)) as [a|e] eqn:Hget.
      * right. exact (proj2 (proj2 (forwarded_selection Hf Hget))).
      * left. destruct (forwarded_no_backend Hf Hget) as (_ & Hst & _).
        rewrite Hst. reflexivity.
Qed.

(** A client that delivers its two bytes is forwarded to the backend under
    the cursor. *)
Lemma tried_admitted i st r st' ev a :
  tried i st (r, st', ev) ->
  2 <= length (pending (rx (client_peer st))) ->
  getitem (g_servers st) (rr_index st) = Ok a ->
  connects ev = [(Serv i, a)] /\
  sockets ev = [Serv i] /\
  rr_index st' = ((rr_index st + 1) mod len (g_servers st))%Z.
Proof.
  intros H Hwf Ha.
  destruct (@read_n_enough (Client i) 2 st Hwf) as (l & evr & Heq & Hq & _).
  assert (Hlen2 : length (firstn 2 (pending (rx (client_peer st)))) = 2)
    by (rewrite length_firstn; lia).
  inversion H as [e st1 ev1 Hr | req st1 ev1 Hr Hlen
                 | req st1 ev1 r' st2 ev2 Hr Hlen Hf]; subst;
    simpl in Heq; rewrite Heq in Hr; inversion Hr; subst.
  - contradiction.
  - destruct (forwarded_selection Hf Ha) as (Hc & Hs & Hrr).
    repeat split; observe; auto.
Qed.

(** ** One iteration *)

Lemma iteration_frame i env st :
  outcome_of (iteration i env st) = Ok tt /\
  g_servers (state_of (iteration i env st)) = g_servers st /\
  (rr_index (state_of (iteration i env st)) = rr_index st \/
   rr_index (state_of (iteration i env st)) =
     ((rr_index st + 1) mod len (g_servers st))%Z).
Proof.
  rewrite iteration_unfold.
  pose proof (try_block_paths i (accepted env st)) as Ht.
  destruct (try_block i (accepted env st)) as [[r st1] ev1].
  destruct (tried_frame Ht) as (Hg & _ & _ & Hrr).
  simpl in *. auto.
Qed.

Lemma iteration_admitted i env st a :
  well_formed env ->
  getitem (g_servers st) (rr_index st) = Ok a ->
  connects (trace_of (iteration i env st)) = [(Serv i, a)] /\
  sockets (trace_of (iteration i env st)) = [Serv i] /\
  rr_index (state_of (iteration i env st)) =
    ((rr_index st + 1) mod len (g_servers st))%Z.
Proof.
  intros Hwf Ha. rewrite iteration_unfold.
  pose proof (try_block_paths i (accepted env st)) as Ht.
  destruct (try_block i (accepted env st)) as [[r st1] ev1].
  destruct (@tried_admitted _ _ _ _ _ a Ht Hwf Ha) as (Hc & Hs & Hrr).
  unfold trace_of, state_of, outcome_of. simpl.
  repeat split; auto.
  - change (EvAccept i :: ev1 ++ logged r ++ [EvClose (Client i)])
      with ([EvAccept i] ++ ev1 ++ logged r ++ [EvClose (Client i)]).
    destruct r; observe; rewrite Hc; reflexivity.
  - change (EvAccept i :: ev1 ++ logged r ++ [EvClose (Client i)])
      with ([EvAccept i] ++ ev1 ++ logged r ++ [EvClose (Client i)]).
    destruct r; observe; rewrite Hs; reflexivity.
Qed.

Lemma cursor_ok_advance st :
  g_servers st <> [] ->
  (0 <= (rr_index st + 1) mod len (g_servers st) < len (g_servers st))%Z.
Proof.
  intro Hne. apply Z.mod_pos_bound. unfold len.
  destruct (g_servers st); [congruence | simpl; lia].
Qed.

Lemma iteration_cursor_ok i env st :
  cursor_ok st -> cursor_ok (state_of (iteration i env st)).
Proof.
  unfold cursor_ok. intro Hok.
  destruct (iteration_frame i env st) as (_ & Hg & Hrr).
  rewrite Hg. destruct Hrr as [-> | ->]; [exact Hok|].
  apply cursor_ok_advance. intro Hnil. rewrite Hnil in Hok.
  unfold len in Hok. simpl in Hok. lia.
Qed.

(** ** The accept loop *)

Lemma accept_loop_cons i env envs st :
  accept_loop i (env :: envs) st =
  prepend (trace_of (iteration i env st))
          (accept_loop (S i) envs (state_of (iteration i env st))).
Proof.
  simpl. unfold bind at 1. rewrite iteration_unfold. reflexivity.
Qed.

Lemma accept_loop_frame envs : forall i st,
  outcome_of (accept_loop i envs st) = Ok tt /\
  g_servers (state_of (accept_loop i envs st)) = g_servers st /\
  (cursor_ok st -> cursor_ok (state_of (accept_loop i envs st))).
Proof.
  induction envs as [|env envs IH]; intros i st.
  - simpl. auto.
  - rewrite accept_loop_cons.
    destruct (IH (S i) (state_of (iteration i env st))) as (Ho & Hg & Hc).
    destruct (accept_loop (S i) envs (state_of (iteration i env st)))
      as [[r st'] ev]. unfold state_of, outcome_of in *. simpl in *.
    split; [exact Ho|]. split.
    + rewrite Hg. apply iteration_frame.
    + intro Hok. apply Hc. apply iteration_cursor_ok. exact Hok.
Qed.

Lemma main_unfold envs st :
  main envs st =
  prepend [EvListen ("0.0.0.0"%string, 80%Z) 128;
           EvPrint "[LB] Listening on 0.0.0.0:80"%string]
          (accept_loop 0 envs
             (mkState (g_servers st) 0 (client_peer st) (serv_peer st)
                      (network st))).
Proof.
  unfold main, bind, emit, print, set_rr_index. simpl.
  destruct (accept_loop 0 envs _) as [[r st'] ev]. reflexivity.
Qed.

Lemma run_unfold srv envs :
  run srv envs =
  prepend [EvListen ("0.0.0.0"%string, 80%Z) 128;
           EvPrint "[LB] Listening on 0.0.0.0:80"%string]
          (accept_loop 0 envs (boot srv)).
Proof. unfold run. rewrite main_unfold. reflexivity. Qed.

(** ** Round robin *)

Lemma advance_nat (rr : Z) (n : nat) :
  (0 <= rr)%Z -> n <> 0 ->
  Z.to_nat ((rr + 1) mod Z.of_nat n) = (Z.to_nat rr + 1) mod n.
Proof.
  intros Hrr Hn.
  rewrite <- (Z2Nat.id rr Hrr) at 1.
  replace (Z.of_nat (Z.to_nat rr) + 1)%Z with (Z.of_nat (Z.to_nat rr + 1))
    by lia.
  rewrite <- Nat2Z.inj_mod. apply Nat2Z.id.
Qed.

Lemma accept_loop_selection d envs : forall i st,
  cursor_ok st ->
  Forall well_formed envs ->
  connects (trace_of (accept_loop i envs st)) =
    map (fun k =>
           (Serv (i + k),
            nth ((Z.to_nat (rr_index st) + k) mod length (g_servers st))
                (g_servers st) d))
        (seq 0 (length envs)) /\
  Z.to_nat (rr_index (state_of (accept_loop i envs st))) =
    (Z.to_nat (rr_index st) + length envs) mod length (g_servers st).
Proof.
  induction envs as [|env envs IH]; intros i st Hok Hwf.
  - simpl. split; [reflexivity|].
    unfold cursor_ok, len in Hok.
    rewrite Nat.add_0_r, Nat.mod_small; [reflexivity | lia].
  - inversion Hwf as [|? ? Hwf1 Hwf2]; subst.
    rewrite accept_loop_cons.
    pose proof (iteration_cursor_ok i env Hok) as Hok1.
    destruct (iteration_admitted i st Hwf1 (getitem_in_range _ d Hok))
      as (Hc & _ & Hrr).
    destruct (iteration_frame i env st) as (_ & Hg & _).
    destruct (IH (S i) _ Hok1 Hwf2) as (IHc & IHr).
    destruct (accept_loop (S i) envs (state_of (iteration i env st)))
      as [[r st'] ev].
    unfold trace_of, state_of in *. simpl snd in *. simpl fst in *.
    unfold cursor_ok, len in Hok.
    assert (Hn : length (g_servers st) <> 0) by lia.
    assert (Hnext : Z.to_nat (rr_index (snd (fst (iteration i env st)))) =
                    (Z.to_nat (rr_index st) + 1) mod length (g_servers st)).
    { rewrite Hrr. apply advance_nat; lia. }
    rewrite Hg, Hnext in *. split.
    + rewrite connects_app, Hc, IHc. simpl length. simpl seq. simpl map.
      simpl app. f_equal.
      * rewrite !Nat.add_0_r. rewrite Nat.mod_small by lia. reflexivity.
      * rewrite <- seq_shift, map_map. apply map_ext. intro k.
        rewrite Nat.Div0.add_mod_idemp_l.
        f_equal; [f_equal; lia | f_equal; f_equal; lia].
    + rewrite IHr. simpl length. rewrite Nat.Div0.add_mod_idemp_l.
      f_equal. lia.
Qed.

(** C1. In a run in which every accepted client delivers its two request
    bytes, the backend contacted for the client number [k] (from 0, so the
    N-th client is number N-1) is [servers[k mod len(servers)]]: the
    connection attempts, in order, walk cyclically through the pool, and the
    cursor ends on the number of clients modulo the pool size. *)
Theorem round_robin_selection (srv : list addr) (envs : list conn_env) :
  srv <> [] ->
  Forall well_formed envs ->
  connects (trace_of (run srv envs)) =
    map (fun k => (Serv k, backend_at srv k)) (seq 0 (length envs)) /\
  rr_index (state_of (run srv envs)) =
    Z.of_nat (length envs mod length srv).
Proof.
  intros Hne Hwf. unfold run. rewrite main_unfold.
  set (st0 := mkState (g_servers (boot srv)) 0 (client_peer (boot srv))
                      (serv_peer (boot srv)) (network (boot srv))).
  assert (Hok : cursor_ok st0).
  { unfold cursor_ok, len. simpl. destruct srv; [congruence | simpl; lia]. }
  destruct (accept_loop_selection (String.EmptyString, 0%Z) 0 Hok Hwf)
    as (Hc & Hr).
  pose proof (accept_loop_frame envs 0 st0) as (_ & _ & Hok').
  specialize (Hok' Hok).
  destruct (accept_loop 0 envs st0) as [[r st'] ev].
  unfold trace_of, state_of, cursor_ok in *. simpl in *.
  split.
  - exact Hc.
  - rewrite <- Hr. rewrite Z2Nat.id; [reflexivity | lia].
Qed.

Lemma four_clients_well_formed : Forall well_formed four_clients.
Proof. repeat constructor. Qed.

Lemma round_robin_selection_witness :
  servers <> [] /\
  Forall well_formed four_clients /\
  connects (trace_of (run servers four_clients)) =
    [ (Serv 0, ("192.168.0.101"%string, 80%Z));
      (Serv 1, ("192.168.0.102"%string, 80%Z));
      (Serv 2, ("192.168.0.103"%string, 80%Z));
      (Serv 3, ("192.168.0.101"%string, 80%Z)) ].
Proof.
  split; [discriminate|]. split; [exact four_clients_well_formed|].
  apply (round_robin_selection (srv := servers) (envs := four_clients)).
  - discriminate.
  - exact four_clients_well_formed.
Defined.

(** A client that does not deliver two bytes, whether it closes or its
    connection fails, contacts no backend and leaves the cursor alone. *)
Lemma iteration_rejected i env st :
  ~ well_formed env ->
  connects (trace_of (iteration i env st)) = [] /\
  rr_index (state_of (iteration i env st)) = rr_index st.
Proof.
  intro Hnwf. rewrite iteration_unfold.
  pose proof (try_block_paths i (accepted env st)) as Ht.
  destruct (try_block i (accepted env st)) as [[r st'] ev].
  unfold trace_of, state_of, outcome_of. simpl fst. simpl snd.
  change (EvAccept i :: ev ++ logged r ++ [EvClose (Client i)])
    with ([EvAccept i] ++ ev ++ logged r ++ [EvClose (Client i)]).
  inversion Ht as [e st1 ev1 Hr | req st1 ev1 Hr Hlen
                  | req st1 ev1 r' st2 ev2 Hr Hlen Hf]; subst.
  - use_calls. split; observe; reflexivity.
  - use_calls. split; observe; reflexivity.
  - exfalso. apply Hnwf. use_calls. simpl in Hpost.
    destruct Hpost as (got & <- & Hp & _).
    unfold well_formed. simpl in Hp. rewrite Hp, length_app. lia.
Qed.

Lemma accept_loop_admitted d envs : forall i st,
  cursor_ok st ->
  map snd (connects (trace_of (accept_loop i envs st))) =
    map (fun k =>
           nth ((Z.to_nat (rr_index st) + k) mod length (g_servers st))
               (g_servers st) d)
        (seq 0 (length (filter admitted envs))) /\
  Z.to_nat (rr_index (state_of (accept_loop i envs st))) =
    (Z.to_nat (rr_index st) + length (filter admitted envs))
      mod length (g_servers st).
Proof.
  induction envs as [|env envs IH]; intros i st Hok.
  - simpl. split; [reflexivity|].
    unfold cursor_ok, len in Hok.
    rewrite Nat.add_0_r, Nat.mod_small; [reflexivity | lia].
  - rewrite accept_loop_cons, trace_of_prepend, state_of_prepend.
    pose proof (iteration_cursor_ok i env Hok) as Hok1.
    destruct (iteration_frame i env st) as (_ & Hg & _).
    destruct (IH (S i) _ Hok1) as (IHc & IHr).
    rewrite connects_app, map_app, IHc, IHr, Hg. clear IHc IHr.
    assert (Hn : length (g_servers st) <> 0)
      by (unfold cursor_ok, len in Hok; lia).
    simpl filter. destruct (admitted env) eqn:Hadm; unfold admitted in Hadm.
    + apply Nat.leb_le in Hadm.
      destruct (iteration_admitted i st Hadm (getitem_in_range _ d Hok))
        as (Hc & _ & Hrr).
      assert (Hnext : Z.to_nat (rr_index (state_of (iteration i env st))) =
                      (Z.to_nat (rr_index st) + 1) mod length (g_servers st)).
      { rewrite Hrr. apply advance_nat; [apply Hok | exact Hn]. }
      rewrite Hc, Hnext. simpl length. simpl seq. simpl map. split.
      * simpl app. f_equal.
        -- rewrite Nat.add_0_r, Nat.mod_small; [reflexivity|].
           unfold cursor_ok, len in Hok. lia.
        -- rewrite <- seq_shift, map_map. apply map_ext. intro k.
           rewrite Nat.Div0.add_mod_idemp_l.
           f_equal. f_equal. lia.
      * rewrite Nat.Div0.add_mod_idemp_l. f_equal. lia.
    + apply Nat.leb_gt in Hadm.
      destruct (@iteration_rejected i env st) as (Hc & Hrr).
      { unfold well_formed. lia. }
      rewrite Hc, Hrr. split; reflexivity.
Qed.

(** X1. Round robin among the admitted.  In any run over a non-empty pool,
    clients that are dropped or whose connection fails before two bytes do
    not count: the backends contacted, in order, are
    [servers[0], servers[1], ...] cyclically, one per client that delivered
    its request. *)
Theorem round_robin_among_admitted (srv : list addr) (envs : list conn_env) :
  srv <> [] ->
  map snd (connects (trace_of (run srv envs))) =
    map (backend_at srv) (seq 0 (length (filter admitted envs))).
Proof.
  intro Hne. rewrite run_unfold, trace_of_prepend, connects_app.
  assert (Hok : cursor_ok (boot srv)).
  { unfold cursor_ok, len. simpl. destruct srv; [congruence | simpl; lia]. }
  destruct (accept_loop_admitted (String.EmptyString, 0%Z) envs 0 Hok)
    as (Hc & _).
  simpl app. rewrite Hc. reflexivity.
Qed.

Lemma round_robin_among_admitted_witness :
  servers <> [] /\
  map snd (connects (trace_of (run servers mixed_clients))) =
    [ ("192.168.0.101"%string, 80%Z); ("192.168.0.102"%string, 80%Z) ].
Proof.
  split; [discriminate|].
  apply (@round_robin_among_admitted servers mixed_clients). discriminate.
Defined.

(** ** The cursor stays in range *)

(** C7. The cursor is 0 when the loop is entered; an iteration either leaves
    it alone or takes it to [(rr_index + 1) % len(servers)]; and with a
    non-empty pool it lies in [[0, len(servers))] at the head of the loop
    after any sequence of connections. *)
Theorem rr_index_in_range (srv : list addr) (envs : list conn_env)
    (i : nat) (env : conn_env) (st : state) :
  srv <> [] ->
  rr_index (state_of (run srv [])) = 0%Z /\
  (rr_index (state_of (iteration i env st)) = rr_index st \/
   rr_index (state_of (iteration i env st)) =
     ((rr_index st + 1) mod len (g_servers st))%Z) /\
  (0 <= rr_index (state_of (run srv envs))
     < len (g_servers (state_of (run srv envs))))%Z.
Proof.
  intro Hne. split; [reflexivity|]. split.
  - apply iteration_frame.
  - rewrite run_unfold, state_of_prepend.
    apply accept_loop_frame.
    unfold cursor_ok, len. simpl. destruct srv; [congruence | simpl; lia].
Qed.

Lemma rr_index_in_range_witness :
  servers <> [] /\
  (0 <= rr_index (state_of (run servers four_clients))
     < len (g_servers (state_of (run servers four_clients))))%Z.
Proof.
  split; [discriminate|].
  apply (@rr_index_in_range servers four_clients 0
           (plain_conn [] []) (boot servers)).
  discriminate.
Defined.

(** ** The pool is never written *)

(** C9. An iteration of the accept loop leaves the list [servers] as it
    was, contents and order, on every path; so does a whole run.  Of the two
    variables the forwarder carries from one connection to the next,
    [servers] and [rr_index], only [rr_index] can differ afterwards. *)
Theorem servers_unchanged (srv : list addr) (envs : list conn_env)
    (i : nat) (env : conn_env) (st : state) :
  g_servers (state_of (iteration i env st)) = g_servers st /\
  g_servers (state_of (run srv envs)) = srv.
Proof.
  split.
  - apply iteration_frame.
  - rewrite run_unfold, state_of_prepend.
    apply (accept_loop_frame envs 0 (boot srv)).
Qed.

(** ** Clients are closed before the next accept *)

Lemma in_accepts k tr : In (EvAccept k) tr -> In k (accepts tr).
Proof.
  intro H. unfold accepts. apply in_flat_map.
  exists (EvAccept k). simpl. auto.
Qed.

Lemma no_accepts_all_closed tr : accepts tr = [] -> all_closed tr.
Proof.
  intros Hq k Hin. apply in_accepts in Hin. rewrite Hq in Hin. contradiction.
Qed.

Lemma no_accepts_closed_at tr : accepts tr = [] -> closed_at_accepts tr.
Proof.
  intros Hq pre j post ->. rewrite accepts_app in Hq. simpl in Hq.
  apply app_eq_nil in Hq. destruct Hq as [_ Hq]. discriminate.
Qed.

Lemma all_closed_app a b : all_closed a -> all_closed b -> all_closed (a ++ b).
Proof.
  intros Ha Hb k Hin. apply in_app_iff in Hin. apply in_app_iff.
  destruct Hin as [Hin|Hin]; [left; apply Ha | right; apply Hb]; exact Hin.
Qed.

Lemma closed_at_accepts_app a b :
  closed_at_accepts a -> all_closed a -> closed_at_accepts b ->
  closed_at_accepts (a ++ b).
Proof.
  intros Hca Ha Hcb pre j post Heq.
  apply app_eq_app in Heq. destruct Heq as [l [[Hpre Hb] | [Hpre Hb]]].
  - destruct l as [|e l].
    + rewrite app_nil_r in Hpre. subst. exact Ha.
    + simpl in Hb. inversion Hb; subst. eapply Hca. reflexivity.
  - subst pre. apply all_closed_app; [exact Ha|]. eapply Hcb. exact Hb.
Qed.

Section OneIteration.
Variables (i : nat) (body : trace).
Hypothesis Hbody : accepts body = [].

Lemma iteration_all_closed :
  all_closed (EvAccept i :: body ++ [EvClose (Client i)]).
Proof.
  intros k [Hk|Hk].
  - inversion Hk; subst. right. apply in_app_iff. right. simpl. auto.
  - apply in_accepts in Hk. rewrite accepts_app, Hbody in Hk.
    simpl in Hk. contradiction.
Qed.

Lemma iteration_closed_at :
  closed_at_accepts (EvAccept i :: body ++ [EvClose (Client i)]).
Proof.
  intros pre j post Heq. destruct pre as [|e pre].
  - intros k [].
  - simpl in Heq. inversion Heq as [[He Hrest]].
    assert (Hq : accepts (body ++ [EvClose (Client i)]) = [])
      by (rewrite accepts_app, Hbody; reflexivity).
    rewrite Hrest, accepts_app in Hq. simpl in Hq.
    apply app_eq_nil in Hq. destruct Hq as [_ Hq]. discriminate.
Qed.
End OneIteration.

Lemma iteration_trace_shape i env st :
  exists body,
    accepts body = [] /\
    trace_of (iteration i env st) =
      EvAccept i :: body ++ [EvClose (Client i)].
Proof.
  rewrite iteration_unfold.
  pose proof (try_block_paths i (accepted env st)) as Ht.
  destruct (try_block i (accepted env st)) as [[r st1] ev1].
  destruct (tried_frame Ht) as (_ & _ & Ha & _).
  exists (ev1 ++ logged r). unfold trace_of, outcome_of. simpl.
  rewrite <- app_assoc. split; [|reflexivity].
  rewrite accepts_app, Ha. destruct r; reflexivity.
Qed.

Lemma accept_loop_closed envs : forall i st,
  closed_at_accepts (trace_of (accept_loop i envs st)) /\
  all_closed (trace_of (accept_loop i envs st)).
Proof.
  induction envs as [|env envs IH]; intros i st.
  - simpl. split.
    + apply no_accepts_closed_at. reflexivity.
    + apply no_accepts_all_closed. reflexivity.
  - rewrite accept_loop_cons, trace_of_prepend.
    destruct (iteration_trace_shape i env st) as (body & Hb & ->).
    destruct (IH (S i) (state_of (iteration i env st))) as [IHc IHa].
    split.
    + apply closed_at_accepts_app; auto.
      * apply iteration_closed_at. exact Hb.
      * apply iteration_all_closed. exact Hb.
    + apply all_closed_app; auto. apply iteration_all_closed. exact Hb.
Qed.

(** C8. In the trace of any run, at every point where the loop accepts a
    connection, each client accepted earlier has already been closed: the
    close of the client is the last call of its iteration on every path,
    the early abort, the success path and the error paths alike. *)
Theorem client_closed_before_next_accept (srv : list addr)
    (envs : list conn_env) (pre post : trace) (j : nat) :
  trace_of (run srv envs) = pre ++ EvAccept j :: post ->
  all_closed pre.
Proof.
  rewrite run_unfold, trace_of_prepend.
  revert pre j post. fold (closed_at_accepts
    ([EvListen ("0.0.0.0"%string, 80%Z) 128;
      EvPrint "[LB] Listening on 0.0.0.0:80"%string]
     ++ trace_of (accept_loop 0 envs (boot srv)))).
  apply closed_at_accepts_app.
  - apply no_accepts_closed_at. reflexivity.
  - apply no_accepts_all_closed. reflexivity.
  - apply accept_loop_closed.
Qed.

Lemma client_closed_before_next_accept_witness :
  trace_of (run servers mixed_clients) =
    firstn 15 (trace_of (run servers mixed_clients)) ++
    EvAccept 2 :: skipn 16 (trace_of (run servers mixed_clients)) /\
  all_closed (firstn 15 (trace_of (run servers mixed_clients))).
Proof.
  assert (H : trace_of (run servers mixed_clients) =
              firstn 15 (trace_of (run servers mixed_clients)) ++
              EvAccept 2 :: skipn 16 (trace_of (run servers mixed_clients)))
    by (vm_compute; reflexivity).
  split; [exact H|].
  exact (@client_closed_before_next_accept servers mixed_clients _ _ _ H).
Defined.

(** ** Short requests *)

Lemma try_block_short i st :
  length (pending (rx (client_peer st))) < 2 ->
  ending (rx (client_peer st)) = None ->
  exists ev,
    Forall (is_recv_on (Client i)) ev /\
    try_block i st =
      (Ok Continue, set_rx (Client i) [] st, ev ++ [EvClose (Client i)]).
Proof.
  intros Hlen Hend.
  destruct (@read_n_closed (Client i) 2 st Hlen Hend) as (ev & Heq & Hq).
  exists ev. split; [exact Hq|].
  unfold try_block, bind. rewrite Heq.
  change (peer_of (Client i) st) with (client_peer st).
  replace (length (pending (rx (client_peer st))) =? 2) with false
    by (symmetry; apply Nat.eqb_neq; lia).
  reflexivity.
Qed.

(** C2. When the client closes after fewer than two bytes (none included),
    the iteration closes the client socket, makes no write on it, creates no
    backend socket, attempts no connection, logs nothing, and leaves
    [rr_index] as it was. *)
Theorem short_request_dropped (i : nat) (env : conn_env) (st : state) :
  short env ->
  In (EvClose (Client i)) (trace_of (iteration i env st)) /\
  sends (Client i) (trace_of (iteration i env st)) = [] /\
  written (Client i) (trace_of (iteration i env st)) = [] /\
  sockets (trace_of (iteration i env st)) = [] /\
  connects (trace_of (iteration i env st)) = [] /\
  prints (trace_of (iteration i env st)) = [] /\
  rr_index (state_of (iteration i env st)) = rr_index st.
Proof.
  intros [Hlen Hend]. rewrite iteration_unfold.
  destruct (@try_block_short i (accepted env st) Hlen Hend)
    as (ev & Hq & Heq).
  rewrite Heq. unfold trace_of, state_of, outcome_of. simpl fst. simpl snd.
  change (EvAccept i ::
            (ev ++ [EvClose (Client i)]) ++
            logged (Ok Continue) ++ [EvClose (Client i)])
    with ([EvAccept i] ++
            (ev ++ [EvClose (Client i)]) ++ [EvClose (Client i)]).
  split.
  { right. apply in_app_iff. right. simpl. auto. }
  repeat split; observe; reflexivity.
Qed.

Lemma short_request_dropped_witness :
  short (plain_conn [Byte.x01] [Byte.x41]) /\
  connects (trace_of (iteration 0 (plain_conn [Byte.x01] [Byte.x41])
                                (boot servers))) = [] /\
  rr_index (state_of (iteration 0 (plain_conn [Byte.x01] [Byte.x41])
                                (boot servers))) = 0%Z.
Proof.
  assert (H : short (plain_conn [Byte.x01] [Byte.x41]))
    by (split; [simpl; lia | reflexivity]).
  split; [exact H|].
  split; apply (short_request_dropped 0 (boot servers) H).
Defined.

(** ** The iteration of a well-formed client *)

Lemma iteration_forward i env st :
  well_formed env ->
  exists l evr r st2 ev2,
    Forall (is_recv_on (Client i)) evr /\
    pending l = skipn 2 (pending (rx (client_wire env))) /\
    forwarded i (firstn 2 (pending (rx (client_wire env))))
              (set_rx (Client i) l (accepted env st)) (r, st2, ev2) /\
    iteration i env st =
      (Ok tt, st2,
       [EvAccept i] ++ evr ++ ev2 ++ logged r ++ [EvClose (Client i)]) /\
    try_block i (accepted env st) = (r, st2, evr ++ ev2).
Proof.
  intro Hwf. rewrite iteration_unfold.
  destruct (@read_n_enough (Client i) 2 (accepted env st) Hwf)
    as (l & evr & Heq & Hq & Hp).
  simpl peer_of in *.
  change (rx (client_peer (accepted env st))) with (rx (client_wire env)) in *.
  assert (Hlen2 : length (firstn 2 (pending (rx (client_wire env)))) = 2)
    by (rewrite length_firstn; unfold well_formed in Hwf; lia).
  pose proof (try_block_paths i (accepted env st)) as Ht.
  destruct (try_block i (accepted env st)) as [[r st2] ev].
  inversion Ht as [e st1 ev1 Hr | req st1 ev1 Hr Hlen
                  | req st1 ev1 r' st2' ev2 Hr Hlen Hf]; subst;
    rewrite Heq in Hr; inversion Hr; subst; try contradiction.
  exists l, ev1, r, st2, ev2.
  unfold trace_of, state_of, outcome_of. simpl.
  rewrite <- app_assoc. repeat split; auto.
Qed.

(** ** [read_n] reads a prefix and no more *)

Lemma forwarded_not_continue i req st st' ev :
  ~ forwarded i req st (Ok Continue, st', ev).
Proof. intro H. inversion H. Qed.

Lemma try_block_continue i st :
  outcome_of (try_block i st) = Ok Continue ->
  length (pending (rx (client_peer st))) < 2.
Proof.
  pose proof (try_block_paths i st) as Ht.
  destruct (try_block i st) as [[r st'] ev]. unfold outcome_of. simpl.
  intros ->.
  inversion Ht as [e st1 ev1 Hr | req st1 ev1 Hr Hlen
                  | req st1 ev1 r' st2 ev2 Hr Hlen Hf]; subst.
  - use_calls. simpl in Hpost.
    destruct Hpost as (got & <- & Hp & _ & Hle & Hnil).
    simpl in *. specialize (Hle (Nat.le_0_l 2)).
    rewrite Hnil in Hp by lia. simpl in Hp. rewrite app_nil_r in Hp.
    rewrite Hp. lia.
  - exfalso. eapply forwarded_not_continue. eassumption.
Qed.

Lemma sends_request_first i req st r st' ev a :
  forwarded i req st (r, st', ev) ->
  getitem (g_servers st) (rr_index st) = Ok a ->
  connect_error (network st a) = None ->
  exists r0 more, sends (Serv i) ev = (req, r0) :: more.
Proof.
  intros H Ha Hc.
  inversion H; subst; try congruence;
    match goal with
    | Hb : getitem _ _ = Ok ?b |- _ =>
        assert (b = a) by congruence; subst b
    end; try congruence;
    use_calls; observe;
    repeat match goal with
           | Hf : exists _ _, sends (Serv i) _ = _ |- _ =>
               destruct Hf as (? & ? & ->)
           end;
    simpl; eauto.
Qed.

(** C10. [read_n(conn, n)] returns a prefix of what the stream holds, of
    length at most [n], and leaves the rest of the stream unread; the prefix
    is shorter than [n] only if the peer has closed.  It returns the first
    [n] bytes whenever that many arrive, all the bytes when fewer arrive
    before the peer closes, and raises only when the connection fails before
    [n] bytes have arrived.  So the [continue] of the loop body
    is taken only after a short read, and a client that sends more than two
    bytes has its first two bytes read and offered to the backend while the
    others stay in its stream. *)
Theorem read_n_reads_prefix (conn : sock) (n : nat) (st : state)
    (i : nat) (env : conn_env) (st0 : state) :
  (forall data st' ev,
     read_n conn n st = (Ok data, st', ev) ->
     data = firstn (length data) (pending (rx (peer_of conn st))) /\
     length data <= n /\
     pending (rx (peer_of conn st')) =
       skipn (length data) (pending (rx (peer_of conn st))) /\
     (length data < n ->
      rx (peer_of conn st') = [] /\ ending (rx (peer_of conn st)) = None)) /\
  (n <= length (pending (rx (peer_of conn st))) ->
   outcome_of (read_n conn n st) =
     Ok (firstn n (pending (rx (peer_of conn st))))) /\
  (length (pending (rx (peer_of conn st))) < n ->
   ending (rx (peer_of conn st)) = None ->
   outcome_of (read_n conn n st) = Ok (pending (rx (peer_of conn st)))) /\
  (forall msg,
     length (pending (rx (peer_of conn st))) < n ->
     ending (rx (peer_of conn st)) = Some msg ->
     outcome_of (read_n conn n st) = Raise (OSError msg)) /\
  (outcome_of (try_block i st0) = Ok Continue ->
   length (pending (rx (client_peer st0))) < 2) /\
  (well_formed env ->
   pending (rx (client_peer (state_of (iteration i env st0)))) =
     skipn 2 (pending (rx (client_wire env))) /\
   forall a,
     getitem (g_servers st0) (rr_index st0) = Ok a ->
     connect_error (backends env a) = None ->
     exists r0 more,
       sends (Serv i) (trace_of (iteration i env st0)) =
         (firstn 2 (pending (rx (client_wire env))), r0) :: more).
Proof.
  split; [|split; [|split; [|split; [|split]]]].
  - intros data st' ev Hr. use_calls. simpl in Hpost.
    destruct Hpost as (got & <- & Hp & He & Hle & Hnil). simpl in *.
    destruct (app_prefix_firstn _ _ Hp) as [Hf Hs].
    rewrite rx_set_rx. repeat split; auto.
    + apply Hle. lia.
    + rewrite <- He, (Hnil H). reflexivity.
  - intro Hn. destruct (read_n_enough _ _ Hn) as (l & ev & -> & _).
    reflexivity.
  - intros Hn He. destruct (read_n_closed _ _ Hn He) as (ev & -> & _).
    reflexivity.
  - intros msg Hn He.
    destruct (read_n_failed _ _ Hn He) as (l & ev & -> & _).
    reflexivity.
  - apply try_block_continue.
  - intro Hwf.
    destruct (iteration_forward i st0 Hwf)
      as (l & evr & r & st2 & ev2 & Hq & Hp & Hf & -> & _).
    unfold state_of, trace_of. simpl fst. simpl snd. split.
    + destruct (forwarded_frame Hf) as (_ & _ & Hrx & _).
      rewrite Hrx. simpl. exact Hp.
    + intros a Ha Hc.
      destruct (sends_request_first Hf Ha Hc) as (r0 & more & Hs).
      exists r0, more. destruct r; observe; rewrite Hs; reflexivity.
Qed.

(** ** The exchange with the backend *)

(** What lines 42-51 do with a backend that is reached. *)
Lemma forwarded_exchange i req st r st' ev a :
  forwarded i req st (r, st', ev) ->
  getitem (g_servers st) (rr_index st) = Ok a ->
  connect_error (network st a) = None ->
  (exists rest, req = written (Serv i) ev ++ rest) /\
  (tx_accepts (tx (backend_wire (network st a))) (length req) = true ->
   written (Serv i) ev = req /\
   recvs (Serv i) ev =
     [(4096, fst (recv_rx (rx (backend_wire (network st a))) 4096))] /\
   (forall e,
      fst (recv_rx (rx (backend_wire (network st a))) 4096) = Raise e ->
      sends (Client i) ev = []) /\
   (fst (recv_rx (rx (backend_wire (network st a))) 4096) = Ok [] ->
    sends (Client i) ev = []) /\
   (forall resp,
      fst (recv_rx (rx (backend_wire (network st a))) 4096) = Ok resp ->
      resp <> [] ->
      (exists r0 more, sends (Client i) ev = (resp, r0) :: more) /\
      (exists rest, resp = written (Client i) ev ++ rest) /\
      (tx_accepts (tx (client_peer st)) (length resp) = true ->
       written (Client i) ev = resp))).
Proof.
  intros H Ha Hc.
  inversion H as [ e Hg
                 | a0 msg Hg Hce
                 | a0 e st1 ev1 Hg Hce Hs
                 | a0 st1 ev1 e st2 ev2 Hg Hce Hs Hr
                 | a0 st1 ev1 st2 ev2 Hg Hce Hs Hr
                 | a0 st1 ev1 b resp st2 ev2 e st3 ev3 Hg Hce Hs Hr Hs'
                 | a0 st1 ev1 b resp st2 ev2 st3 ev3 Hg Hce Hs Hr Hs' ];
    subst; try congruence;
    assert (a0 = a) by congruence; subst a0; try congruence;
    use_calls; simpl in *.
  - (* the request could not be sent *)
    destruct Hpost as (msg & rest & -> & Hreq). split.
    + exists rest. observe. exact Hreq.
    + intro Htx. specialize (Hacc Htx). discriminate.
  - (* the receive failed *)
    split; [exists []; observe; congruence|]. intros _.
    repeat split; observe; auto; congruence.
  - (* the backend sent nothing *)
    split; [exists []; observe; congruence|]. intros _.
    repeat split; observe; auto; congruence.
  - (* the reply could not be sent *)
    split; [exists []; observe; congruence|]. intros _.
    split; [observe; congruence|]. split; [observe; congruence|].
    split; [intros; congruence|]. split; [intros; congruence|].
    intros resp0 Hr0 Hne. assert (resp0 = b :: resp) by congruence.
    subst resp0.
    match goal with
    | Hf : exists _ _, sends (Client i) _ = _ |- _ =>
        destruct Hf as (r0 & more & Hf)
    end.
    match goal with
    | Hp : exists _ _, _ = OSError _ /\ _ |- _ =>
        destruct Hp as (msg & rest & -> & Hrest)
    end.
    split; [|split].
    + exists r0, more. observe. assumption.
    + exists rest. observe. assumption.
    + intro Htx.
      match goal with
      | Hacc : _ -> Raise _ = Ok tt |- _ => specialize (Hacc Htx)
      end.
      discriminate.
  - (* the reply was sent *)
    split; [exists []; observe; congruence|]. intros _.
    split; [observe; congruence|]. split; [observe; congruence|].
    split; [intros; congruence|]. split; [intros; congruence|].
    intros resp0 Hr0 Hne. assert (resp0 = b :: resp) by congruence.
    subst resp0.
    match goal with
    | Hf : exists _ _, sends (Client i) _ = _ |- _ =>
        destruct Hf as (r0 & more & Hf)
    end.
    split; [|split].
    + exists r0, more. observe. assumption.
    + exists []. observe. auto.
    + intros _. observe. assumption.
Qed.

(** The writes, and the reads on the backend socket, of the iteration of a
    well-formed client are those of its forwarding block. *)
Lemma iteration_observed i env st :
  well_formed env ->
  exists l r st2 ev2,
    forwarded i (firstn 2 (pending (rx (client_wire env))))
              (set_rx (Client i) l (accepted env st)) (r, st2, ev2) /\
    (forall s, sends s (trace_of (iteration i env st)) = sends s ev2) /\
    (forall s, written s (trace_of (iteration i env st)) = written s ev2) /\
    recvs (Serv i) (trace_of (iteration i env st)) = recvs (Serv i) ev2.
Proof.
  intro Hwf.
  destruct (iteration_forward i st Hwf)
    as (l & evr & r & st2 & ev2 & Hq & _ & Hf & -> & _).
  exists l, r, st2, ev2. unfold trace_of. simpl snd.
  split; [exact Hf|].
  repeat split; intros; destruct r; observe; reflexivity.
Qed.

(** ** Transmission *)

(** C3, as stated, fails: over sockets that accept one byte per write the
    request goes to the backend in two writes and arrives whole, and so does
    the response to the client. *)
Lemma sendall_repeats_writes :
  well_formed trickle_conn /\
  sends (Serv 0) (trace_of (iteration 0 trickle_conn (boot servers))) =
    [ ([Byte.x01; Byte.x02], Ok 1); ([Byte.x02], Ok 1) ] /\
  written (Serv 0) (trace_of (iteration 0 trickle_conn (boot servers))) =
    [Byte.x01; Byte.x02] /\
  sends (Client 0) (trace_of (iteration 0 trickle_conn (boot servers))) =
    [ ([Byte.x41; Byte.x42], Ok 1); ([Byte.x42], Ok 1) ] /\
  ~ single_write (Serv 0)
      (trace_of (iteration 0 trickle_conn (boot servers))) /\
  ~ single_write (Client 0)
      (trace_of (iteration 0 trickle_conn (boot servers))).
Proof.
  split; [unfold well_formed; simpl; lia|].
  assert (Hs : sends (Serv 0)
                 (trace_of (iteration 0 trickle_conn (boot servers))) =
               [ ([Byte.x01; Byte.x02], Ok 1); ([Byte.x02], Ok 1) ])
    by (vm_compute; reflexivity).
  assert (Hc : sends (Client 0)
                 (trace_of (iteration 0 trickle_conn (boot servers))) =
               [ ([Byte.x41; Byte.x42], Ok 1); ([Byte.x42], Ok 1) ])
    by (vm_compute; reflexivity).
  split; [exact Hs|]. split; [vm_compute; reflexivity|].
  split; [exact Hc|].
  unfold single_write. rewrite Hs, Hc. simpl. split; lia.
Qed.

(** C3, amended. For a client that delivers its request while the cursor
    points at a backend that is reached: the first write on the backend
    socket is offered the whole two-byte request, and what the backend
    accepts is always a prefix of the request; when no write on the backend
    socket fails the backend accepts the whole request, in as many writes as
    it takes.  The same holds of the response chunk and the client socket:
    a non-empty chunk is offered whole in the first write, the client
    accepts a prefix of it, and all of it when no write fails. *)
Theorem request_and_reply_sent_whole (i : nat) (env : conn_env) (st : state)
    (a : addr) :
  well_formed env ->
  getitem (g_servers st) (rr_index st) = Ok a ->
  connect_error (backends env a) = None ->
  (exists r0 more,
     sends (Serv i) (trace_of (iteration i env st)) =
       (firstn 2 (pending (rx (client_wire env))), r0) :: more) /\
  (exists rest,
     firstn 2 (pending (rx (client_wire env))) =
       written (Serv i) (trace_of (iteration i env st)) ++ rest) /\
  (tx_accepts (tx (backend_wire (backends env a))) 2 = true ->
   written (Serv i) (trace_of (iteration i env st)) =
     firstn 2 (pending (rx (client_wire env))) /\
   forall resp,
     fst (recv_rx (rx (backend_wire (backends env a))) 4096) = Ok resp ->
     resp <> [] ->
     (exists r0 more,
        sends (Client i) (trace_of (iteration i env st)) =
          (resp, r0) :: more) /\
     (exists rest,
        resp = written (Client i) (trace_of (iteration i env st)) ++ rest) /\
     (tx_accepts (tx (client_wire env)) (length resp) = true ->
      written (Client i) (trace_of (iteration i env st)) = resp)).
Proof.
  intros Hwf Ha Hc.
  destruct (iteration_observed i st Hwf)
    as (l & r & st2 & ev2 & Hf & Hs & Hw & _).
  rewrite !Hs, !Hw.
  assert (Hlen : length (firstn 2 (pending (rx (client_wire env)))) = 2)
    by (rewrite length_firstn; unfold well_formed in Hwf; lia).
  destruct (forwarded_exchange Hf Ha Hc) as (Hpre & Hex).
  rewrite Hlen in Hex. simpl in Hex.
  split; [exact (sends_request_first Hf Ha Hc)|].
  split; [exact Hpre|].
  intro Htx. destruct (Hex Htx) as (Hreq & _ & _ & _ & Hresp).
  split; [exact Hreq|]. exact Hresp.
Qed.

Lemma request_and_reply_sent_whole_witness :
  well_formed trickle_conn /\
  getitem (g_servers (boot servers)) (rr_index (boot servers)) =
    Ok ("192.168.0.101"%string, 80%Z) /\
  connect_error (backends trickle_conn ("192.168.0.101"%string, 80%Z)) =
    None /\
  exists rest,
    firstn 2 (pending (rx (client_wire trickle_conn))) =
      written (Serv 0) (trace_of (iteration 0 trickle_conn (boot servers)))
      ++ rest.
Proof.
  assert (Hwf : well_formed trickle_conn)
    by (unfold well_formed; simpl; lia).
  split; [exact Hwf|]. split; [reflexivity|]. split; [reflexivity|].
  apply (@request_and_reply_sent_whole 0 trickle_conn (boot servers)
           ("192.168.0.101"%string, 80%Z) Hwf eq_refl eq_refl).
Defined.

(** ** The single read *)

Lemma recv_rx_chunk l k resp :
  fst (recv_rx l k) = Ok resp ->
  length resp <= k /\ resp = firstn (length resp) (pending l).
Proof.
  induction l as [|[[|b bs]|msg] l IH]; simpl; intro H.
  - inversion H. split; [simpl; lia | reflexivity].
  - apply IH. exact H.
  - inversion H as [Hresp]. clear H.
    rewrite length_firstn. split; [lia|].
    change (b :: bs ++ pending l) with ((b :: bs) ++ pending l).
    rewrite firstn_app.
    replace (Nat.min k (length (b :: bs)) - length (b :: bs)) with 0 by lia.
    rewrite firstn_O, app_nil_r.
    destruct (Nat.le_ge_cases k (length (b :: bs))) as [Hk|Hk].
    + rewrite Nat.min_l by exact Hk. reflexivity.
    + rewrite Nat.min_r by exact Hk.
      rewrite firstn_all, firstn_all2 by exact Hk. reflexivity.
  - discriminate.
Qed.

(** C5, as stated, fails: a well-formed request whose backend refuses the
    connection leads to no read on the backend socket at all. *)
Lemma no_read_without_backend :
  well_formed refused_conn /\
  recvs (Serv 0) (trace_of (iteration 0 refused_conn (boot servers))) = [] /\
  length (recvs (Serv 0)
            (trace_of (iteration 0 refused_conn (boot servers)))) <> 1.
Proof.
  split; [unfold well_formed; simpl; lia|].
  assert (H : recvs (Serv 0)
                (trace_of (iteration 0 refused_conn (boot servers))) = [])
    by (vm_compute; reflexivity).
  split; [exact H|]. rewrite H. simpl. lia.
Qed.

(** C5, amended. For a client that delivers its request while the cursor
    points at a backend that is reached and that accepts the request:
    exactly one [recv] is made on the backend socket, with buffer size 4096.
    If it returns a chunk, the chunk has at most 4096 bytes and is a prefix
    of what the backend sends; an empty chunk leads to no write on the
    client socket; a non-empty chunk is offered whole to the client in the
    first write, and the client accepts exactly the chunk when no write on
    its socket fails.  If the read raises, nothing is written to the
    client.  A first segment of the response longer than 4096 bytes is cut
    to its first 4096 bytes. *)
Theorem single_read_relayed (i : nat) (env : conn_env) (st : state)
    (a : addr) :
  well_formed env ->
  getitem (g_servers st) (rr_index st) = Ok a ->
  connect_error (backends env a) = None ->
  tx_accepts (tx (backend_wire (backends env a))) 2 = true ->
  recvs (Serv i) (trace_of (iteration i env st)) =
    [(4096, fst (recv_rx (rx (backend_wire (backends env a))) 4096))] /\
  (forall resp,
     fst (recv_rx (rx (backend_wire (backends env a))) 4096) = Ok resp ->
     length resp <= 4096 /\
     resp = firstn (length resp)
              (pending (rx (backend_wire (backends env a)))) /\
     (resp = [] ->
      sends (Client i) (trace_of (iteration i env st)) = []) /\
     (resp <> [] ->
      (exists r0 more,
         sends (Client i) (trace_of (iteration i env st)) =
           (resp, r0) :: more) /\
      (tx_accepts (tx (client_wire env)) (length resp) = true ->
       written (Client i) (trace_of (iteration i env st)) = resp))) /\
  (forall e,
     fst (recv_rx (rx (backend_wire (backends env a))) 4096) = Raise e ->
     sends (Client i) (trace_of (iteration i env st)) = []) /\
  (forall b bs rest,
     rx (backend_wire (backends env a)) = Segment (b :: bs) :: rest ->
     fst (recv_rx (rx (backend_wire (backends env a))) 4096) =
       Ok (firstn 4096 (b :: bs))).
Proof.
  intros Hwf Ha Hc Htx.
  destruct (iteration_observed i st Hwf)
    as (l & r & st2 & ev2 & Hf & Hs & Hw & Hr).
  rewrite !Hs, !Hw, Hr.
  assert (Hlen : length (firstn 2 (pending (rx (client_wire env)))) = 2)
    by (rewrite length_firstn; unfold well_formed in Hwf; lia).
  destruct (forwarded_exchange Hf Ha Hc) as (_ & Hex).
  rewrite Hlen in Hex. simpl in Hex.
  destruct (Hex Htx) as (_ & Hrecv & Hraise & Hempty & Hresp).
  split; [exact Hrecv|]. split; [|split].
  - intros resp Hchunk.
    destruct (recv_rx_chunk _ _ Hchunk) as (Hle & Hpre).
    split; [exact Hle|]. split; [exact Hpre|]. split.
    + intros ->. apply Hempty. exact Hchunk.
    + intro Hne. destruct (Hresp resp Hchunk Hne) as (Hfirst & _ & Hall).
      split; assumption.
  - exact Hraise.
  - intros b bs rest ->. reflexivity.
Qed.

Lemma single_read_relayed_witness :
  well_formed long_conn /\
  getitem (g_servers (boot servers)) (rr_index (boot servers)) =
    Ok ("192.168.0.101"%string, 80%Z) /\
  connect_error (backends long_conn ("192.168.0.101"%string, 80%Z)) = None /\
  tx_accepts
    (tx (backend_wire (backends long_conn ("192.168.0.101"%string, 80%Z))))
    2 = true /\
  recvs (Serv 0) (trace_of (iteration 0 long_conn (boot servers))) =
    [(4096, Ok (repeat Byte.x41 4096))].
Proof.
  assert (Hwf : well_formed long_conn) by (unfold well_formed; simpl; lia).
  split; [exact Hwf|]. split; [reflexivity|]. split; [reflexivity|].
  split; [reflexivity|].
  apply (@single_read_relayed 0 long_conn (boot servers)
           ("192.168.0.101"%string, 80%Z) Hwf eq_refl eq_refl eq_refl).
Defined.

(** ** The backend socket *)

Lemma forwarded_closes i req st r st' ev :
  forwarded i req st (r, st', ev) ->
  closes ev = match r with Ok _ => [Serv i] | Raise _ => [] end.
Proof.
  intro H. inversion H; subst; use_calls; observe; reflexivity.
Qed.

(** The only close of the backend socket is the one of line 51: the socket
    is closed when the [try] block runs to its end, and left open whenever
    the block raises after creating it. *)
Lemma backend_closed_only_on_success i env st :
  well_formed env ->
  closes (trace_of (iteration i env st)) =
    match outcome_of (try_block i (accepted env st)) with
    | Ok _ => [Serv i; Client i]
    | Raise _ => [Client i]
    end.
Proof.
  intro Hwf.
  destruct (iteration_forward i st Hwf)
    as (l & evr & r & st2 & ev2 & Hq & _ & Hf & -> & ->).
  unfold trace_of, outcome_of. simpl fst. simpl snd.
  pose proof (forwarded_closes Hf) as Hc.
  destruct r; observe; rewrite Hc; reflexivity.
Qed.

(** C4 at a failing input. The client delivers its request, the first
    backend is reached and takes the request, and its connection is then
    reset: the [recv] of line 47 raises.  The backend socket has been
    created and connected, the error is logged, the client socket is
    closed, and the backend socket is not. *)
Theorem backend_socket_left_open :
  well_formed reset_conn /\
  sockets (trace_of (iteration 0 reset_conn (boot servers))) = [Serv 0] /\
  connects (trace_of (iteration 0 reset_conn (boot servers))) =
    [(Serv 0, ("192.168.0.101"%string, 80%Z))] /\
  recvs (Serv 0) (trace_of (iteration 0 reset_conn (boot servers))) =
    [(4096, Raise (OSError "reset"%string))] /\
  prints (trace_of (iteration 0 reset_conn (boot servers))) =
    ["[LB] Error: reset"%string] /\
  closes (trace_of (iteration 0 reset_conn (boot servers))) = [Client 0] /\
  ~ In (EvClose (Serv 0)) (trace_of (iteration 0 reset_conn (boot servers))).
Proof.
  assert (Hwf : well_formed reset_conn) by (unfold well_formed; simpl; lia).
  split; [exact Hwf|].
  pose proof (backend_closed_only_on_success 0 (boot servers) Hwf) as Hc.
  assert (Ho : outcome_of (try_block 0 (accepted reset_conn (boot servers))) =
               Raise (OSError "reset"%string))
    by (vm_compute; reflexivity).
  rewrite Ho in Hc.
  split; [vm_compute; reflexivity|]. split; [vm_compute; reflexivity|].
  split; [vm_compute; reflexivity|]. split; [vm_compute; reflexivity|].
  split; [exact Hc|].
  intro Hin.
  assert (Hin' : In (Serv 0)
                   (closes (trace_of (iteration 0 reset_conn
                                        (boot servers))))).
  { unfold closes. apply in_flat_map.
    exists (EvClose (Serv 0)). simpl. auto. }
  rewrite Hc in Hin'. simpl in Hin'.
  destruct Hin' as [Hx|[]]. discriminate.
Qed.

(** * Further properties of the loop *)

(** ** What the [try] block prints and which exceptions leave it *)

Lemma forwarded_prints i req st r st' ev :
  forwarded i req st (r, st', ev) -> prints ev = [].
Proof.
  intro H. inversion H; subst; use_calls; observe; reflexivity.
Qed.

Lemma tried_prints i st r st' ev :
  tried i st (r, st', ev) -> prints ev = [].
Proof.
  intro H.
  inversion H as [e st1 ev1 Hr | req st1 ev1 Hr Hlen
                 | req st1 ev1 r' st2 ev2 Hr Hlen Hf]; subst.
  - use_calls. observe. reflexivity.
  - use_calls. observe. reflexivity.
  - pose proof (forwarded_prints Hf) as Hp. use_calls. observe. exact Hp.
Qed.

Lemma getitem_raise {A} (l : list A) i e :
  getitem l i = Raise e -> e = IndexError.
Proof.
  unfold getitem.
  destruct ((_ <? 0) || (_ <=? _))%Z; [intro H; inversion H; reflexivity|].
  destruct (nth_error l _); intro H; inversion H. reflexivity.
Qed.

Lemma recv_rx_raise l k e :
  fst (recv_rx l k) = Raise e -> exists msg, e = OSError msg.
Proof.
  induction l as [|[[|b bs]|msg] l IH]; simpl; intro H.
  - discriminate.
  - apply IH. exact H.
  - discriminate.
  - inversion H. eauto.
Qed.

Lemma forwarded_raise i req st e st' ev :
  forwarded i req st (Raise e, st', ev) ->
  (e = IndexError /\ getitem (g_servers st) (rr_index st) = Raise IndexError)
  \/ exists msg, e = OSError msg.
Proof.
  intro H.
  inversion H as [ e0 Hg
                 | a0 msg Hg Hce
                 | a0 e0 st1 ev1 Hg Hce Hs
                 | a0 st1 ev1 e0 st2 ev2 Hg Hce Hs Hr
                 | a0 st1 ev1 st2 ev2 Hg Hce Hs Hr
                 | a0 st1 ev1 b resp st2 ev2 e0 st3 ev3 Hg Hce Hs Hr Hs'
                 | a0 st1 ev1 b resp st2 ev2 st3 ev3 Hg Hce Hs Hr Hs' ];
    subst.
  - left. pose proof (getitem_raise _ _ Hg). subst. auto.
  - right. eauto.
  - right. use_calls. destruct Hpost as (msg & _ & -> & _). eauto.
  - right. use_calls. eapply recv_rx_raise. eassumption.
  - right. use_calls.
    match goal with
    | Hp : exists _ _, e = OSError _ /\ _ |- _ =>
        destruct Hp as (msg & _ & -> & _)
    end.
    eauto.
Qed.

(** X5. The [try] block ends in one of four ways: it runs to its end, it
    takes the [continue], it raises [IndexError], or it raises an [OSError].
    The modulo of line 39 never raises: line 38 has already failed when the
    pool is empty.  And [IndexError] means that the cursor was outside the
    pool. *)
Theorem try_block_outcomes (i : nat) (st : state) :
  (outcome_of (try_block i st) = Ok Normal \/
   outcome_of (try_block i st) = Ok Continue \/
   outcome_of (try_block i st) = Raise IndexError \/
   exists msg, outcome_of (try_block i st) = Raise (OSError msg)) /\
  (outcome_of (try_block i st) = Raise IndexError ->
   getitem (g_servers st) (rr_index st) = Raise IndexError).
Proof.
  pose proof (try_block_paths i st) as Ht.
  destruct (try_block i st) as [[r st'] ev]. unfold outcome_of. simpl fst.
  inversion Ht as [e st1 ev1 Hr | req st1 ev1 Hr Hlen
                  | req st1 ev1 r' st2 ev2 Hr Hlen Hf]; subst.
  - use_calls. destruct Hpost as (msg & -> & _).
    split; [eauto 6 | discriminate].
  - split; [auto | discriminate].
  - destruct r as [[]|e].
    + split; [auto | discriminate].
    + exfalso. eapply forwarded_not_continue. eassumption.
    + destruct (forwarded_raise Hf) as [[-> Hg] | [msg ->]].
      * use_calls. simpl in Hg. split; auto.
      * split; [eauto 6 | discriminate].
Qed.

(** ** A client whose connection fails *)

Lemma try_block_client_failure i st msg :
  length (pending (rx (client_peer st))) < 2 ->
  ending (rx (client_peer st)) = Some msg ->
  exists l ev,
    Forall (is_recv_on (Client i)) ev /\
    try_block i st = (Raise (OSError msg), set_rx (Client i) l st, ev).
Proof.
  intros Hlen Hend.
  destruct (@read_n_failed (Client i) 2 st msg Hlen Hend)
    as (l & ev & Heq & Hq).
  exists l, ev. split; [exact Hq|].
  unfold try_block, bind. rewrite Heq. reflexivity.
Qed.

(** X3. When the client's connection fails before two bytes have arrived,
    the [recv] inside [read_n] raises through lines 32 and 31: the error is
    printed, the client socket is closed once, no backend socket is created,
    no backend is contacted, nothing is written to the client, the cursor
    stays, and the loop goes on. *)
Theorem client_failure_contained (i : nat) (env : conn_env) (st : state)
    (msg : string) :
  length (pending (rx (client_wire env))) < 2 ->
  ending (rx (client_wire env)) = Some msg ->
  outcome_of (iteration i env st) = Ok tt /\
  prints (trace_of (iteration i env st)) = [log_line (OSError msg)] /\
  closes (trace_of (iteration i env st)) = [Client i] /\
  sockets (trace_of (iteration i env st)) = [] /\
  connects (trace_of (iteration i env st)) = [] /\
  sends (Client i) (trace_of (iteration i env st)) = [] /\
  rr_index (state_of (iteration i env st)) = rr_index st.
Proof.
  intros Hlen Hend. rewrite iteration_unfold.
  destruct (@try_block_client_failure i (accepted env st) msg Hlen Hend)
    as (l & ev & Hq & ->).
  unfold trace_of, state_of, outcome_of. simpl fst. simpl snd.
  change (EvAccept i ::
            ev ++ logged (@Raise control (OSError msg)) ++
            [EvClose (Client i)])
    with ([EvAccept i] ++ ev ++ [EvPrint (log_line (OSError msg))] ++
            [EvClose (Client i)]).
  repeat split; observe; reflexivity.
Qed.

Lemma client_failure_contained_witness :
  length (pending (rx (client_wire broken_conn))) < 2 /\
  ending (rx (client_wire broken_conn)) = Some "reset by peer"%string /\
  prints (trace_of (iteration 0 broken_conn (boot servers))) =
    ["[LB] Error: reset by peer"%string] /\
  rr_index (state_of (iteration 0 broken_conn (boot servers))) = 0%Z.
Proof.
  assert (Hl : length (pending (rx (client_wire broken_conn))) < 2)
    by (simpl; lia).
  split; [exact Hl|]. split; [reflexivity|].
  split;
    apply (@client_failure_contained 0 broken_conn (boot servers)
             "reset by peer"%string Hl eq_refl).
Defined.

(** ** The early abort closes the client twice *)

(** X10. On the early abort the client socket is closed by line 34 and again
    by the [finally] clause that the [continue] passes through: the calls of
    the iteration are the accept, the reads on the client, and two closes of
    the client. *)
Theorem short_request_closed_twice (i : nat) (env : conn_env) (st : state) :
  short env ->
  closes (trace_of (iteration i env st)) = [Client i; Client i] /\
  exists reads,
    Forall (is_recv_on (Client i)) reads /\
    trace_of (iteration i env st) =
      EvAccept i :: reads ++ [EvClose (Client i); EvClose (Client i)].
Proof.
  intros [Hlen Hend]. rewrite iteration_unfold.
  destruct (@try_block_short i (accepted env st) Hlen Hend)
    as (ev & Hq & ->).
  unfold trace_of, state_of, outcome_of. simpl fst. simpl snd. split.
  - change (EvAccept i ::
              (ev ++ [EvClose (Client i)]) ++
              logged (Ok Continue) ++ [EvClose (Client i)])
      with ([EvAccept i] ++
              (ev ++ [EvClose (Client i)]) ++ [EvClose (Client i)]).
    observe. reflexivity.
  - exists ev. split; [exact Hq|]. simpl. rewrite <- app_assoc. reflexivity.
Qed.

Lemma short_request_closed_twice_witness :
  short (plain_conn [Byte.x01] [Byte.x41]) /\
  closes (trace_of (iteration 0 (plain_conn [Byte.x01] [Byte.x41])
                              (boot servers))) = [Client 0; Client 0].
Proof.
  assert (H : short (plain_conn [Byte.x01] [Byte.x41]))
    by (split; [simpl; lia | reflexivity]).
  split; [exact H|].
  apply (@short_request_closed_twice 0 (plain_conn [Byte.x01] [Byte.x41])
           (boot servers) H).
Defined.

(** ** An empty pool *)

Lemma getitem_nil {A} (i : Z) : getitem (@nil A) i = Raise IndexError.
Proof.
  unfold getitem. simpl. rewrite Z.add_0_r.
  destruct (i <? 0)%Z eqn:Hi; rewrite Hi; [reflexivity|].
  apply Z.ltb_ge in Hi. simpl.
  replace (0 <=? i)%Z with true by (symmetry; apply Z.leb_le; exact Hi).
  reflexivity.
Qed.

Lemma iteration_empty_pool i env st :
  g_servers st = [] ->
  connects (trace_of (iteration i env st)) = [] /\
  sockets (trace_of (iteration i env st)) = [] /\
  rr_index (state_of (iteration i env st)) = rr_index st.
Proof.
  intro Hnil. rewrite iteration_unfold.
  pose proof (try_block_paths i (accepted env st)) as Ht.
  destruct (try_block i (accepted env st)) as [[r st'] ev].
  unfold trace_of, state_of, outcome_of. simpl fst. simpl snd.
  change (EvAccept i :: ev ++ logged r ++ [EvClose (Client i)])
    with ([EvAccept i] ++ ev ++ logged r ++ [EvClose (Client i)]).
  inversion Ht as [e st1 ev1 Hr | req st1 ev1 Hr Hlen
                  | req st1 ev1 r' st2 ev2 Hr Hlen Hf]; subst.
  - use_calls. repeat split; observe; reflexivity.
  - use_calls. repeat split; observe; reflexivity.
  - use_calls.
    assert (Hg : getitem (g_servers (set_rx (Client i) l (accepted env st)))
                         (rr_index (set_rx (Client i) l (accepted env st))) =
                 Raise IndexError)
      by (simpl; rewrite Hnil; apply getitem_nil).
    destruct (forwarded_no_backend Hf Hg) as (-> & -> & ->).
    repeat split; observe; reflexivity.
Qed.

(** X4. With an empty pool, line 38 raises [IndexError] for every client
    that delivers its request: the line "list index out of range" is
    printed, the client is closed, and no socket is created.  Over a whole
    run no backend is ever contacted, the cursor stays at 0, and the loop
    goes on. *)
Theorem empty_pool_serves_nobody (envs : list conn_env) (i : nat)
    (env : conn_env) (st : state) :
  (g_servers st = [] -> well_formed env ->
   prints (trace_of (iteration i env st)) =
     ["[LB] Error: list index out of range"%string] /\
   closes (trace_of (iteration i env st)) = [Client i] /\
   sockets (trace_of (iteration i env st)) = []) /\
  outcome_of (run [] envs) = Ok tt /\
  connects (trace_of (run [] envs)) = [] /\
  sockets (trace_of (run [] envs)) = [] /\
  rr_index (state_of (run [] envs)) = 0%Z.
Proof.
  split.
  - intros Hnil Hwf.
    destruct (iteration_forward i st Hwf)
      as (l & evr & r & st2 & ev2 & Hq & _ & Hf & -> & _).
    assert (Hg : getitem (g_servers (set_rx (Client i) l (accepted env st)))
                         (rr_index (set_rx (Client i) l (accepted env st))) =
                 Raise IndexError)
      by (simpl; rewrite Hnil; apply getitem_nil).
    destruct (forwarded_no_backend Hf Hg) as (-> & _ & ->).
    unfold trace_of. simpl snd. repeat split; observe; reflexivity.
  - rewrite run_unfold, outcome_of_prepend, trace_of_prepend, state_of_prepend.
    split; [apply accept_loop_frame|].
    rewrite connects_app, sockets_app. simpl app.
    assert (H : forall envs i st,
               g_servers st = [] ->
               connects (trace_of (accept_loop i envs st)) = [] /\
               sockets (trace_of (accept_loop i envs st)) = [] /\
               rr_index (state_of (accept_loop i envs st)) = rr_index st).
    { clear. induction envs as [|env envs IH]; intros i st Hnil.
      - simpl. auto.
      - rewrite accept_loop_cons, trace_of_prepend, state_of_prepend.
        destruct (@iteration_empty_pool i env st Hnil) as (Hc & Hs & Hr).
        destruct (iteration_frame i env st) as (_ & Hg & _).
        destruct (IH (S i) (state_of (iteration i env st)))
          as (IHc & IHs & IHr); [congruence|].
        rewrite connects_app, sockets_app, Hc, Hs, IHc, IHs, IHr, Hr. auto. }
    apply (H envs 0 (boot [])). reflexivity.
Qed.

(** ** How [read_n] calls [recv] *)

Lemma received_app l1 l2 : received (l1 ++ l2) = received l1 ++ received l2.
Proof. apply flat_map_app. Qed.

Lemma recvs_one s k r : recvs s [EvRecv s k r] = [(k, r)].
Proof. simpl. rewrite sock_eqb_refl. reflexivity. Qed.

Lemma read_n_loop_calls conn n data st :
  Forall (fun p => 1 <= fst p <= n - length data)
         (recvs conn (trace_of (read_n_loop conn n data st))) /\
  length (recvs conn (trace_of (read_n_loop conn n data st)))
    <= n - length data /\
  (forall d, outcome_of (read_n_loop conn n data st) = Ok d ->
             d = data ++
                 received (recvs conn (trace_of (read_n_loop conn n data st)))).
Proof.
  apply (read_n_loop_elim
           (fun conn n data st res =>
              Forall (fun p => 1 <= fst p <= n - length data)
                     (recvs conn (trace_of res)) /\
              length (recvs conn (trace_of res)) <= n - length data /\
              (forall d, outcome_of res = Ok d ->
                         d = data ++ received (recvs conn (trace_of res)))));
    clear conn n data st.
  - intros conn n data Hge st _. unfold trace_of, outcome_of. simpl.
    repeat split; [constructor | lia |].
    intros d Hd. inversion Hd. rewrite app_nil_r. reflexivity.
  - intros conn n data Hlt st st1 ev1 Hrecv _.
    rewrite recv_unfold in Hrecv. injection Hrecv as Hr Hst Hev. subst ev1.
    rewrite Hr.
    unfold trace_of, outcome_of. simpl. rewrite sock_eqb_refl. simpl.
    repeat split.
    + constructor; [simpl; lia | constructor].
    + lia.
    + intros d Hd. inversion Hd. rewrite app_nil_r. reflexivity.
  - intros conn n data Hlt st b chunk st1 ev1 IH Hrecv _.
    rewrite recv_unfold in Hrecv. injection Hrecv as Hr Hst Hev. subst ev1.
    rewrite Hr.
    destruct IH as (IHb & IHl & IHd).
    rewrite trace_of_prepend, outcome_of_prepend, recvs_app.
    rewrite length_app in IHb, IHl. simpl length in IHb, IHl.
    rewrite !recvs_one. simpl app.
    repeat split.
    + constructor; [simpl; lia|].
      eapply Forall_impl; [|exact IHb]. simpl. intros p Hp. lia.
    + simpl. lia.
    + intros d Hd. rewrite (IHd d Hd). simpl.
      rewrite <- app_assoc. reflexivity.
  - intros conn n data Hlt st e st1 ev1 Hrecv _.
    rewrite recv_unfold in Hrecv. injection Hrecv as Hr Hst Hev. subst ev1.
    rewrite Hr.
    unfold trace_of, outcome_of. simpl. rewrite sock_eqb_refl. simpl.
    repeat split.
    + constructor; [simpl; lia | constructor].
    + lia.
    + intros d Hd. discriminate.
Qed.

(** X6. [read_n(conn, n)] makes at most [n] calls of [recv], each asking for
    at least one byte and at most [n]; what it returns is the chunks those
    calls delivered, in order.  With [n = 0] it makes no call. *)
Theorem read_n_call_discipline (conn : sock) (n : nat) (st : state) :
  Forall (fun p => 1 <= fst p <= n)
         (recvs conn (trace_of (read_n conn n st))) /\
  length (recvs conn (trace_of (read_n conn n st))) <= n /\
  (forall data,
     outcome_of (read_n conn n st) = Ok data ->
     data = received (recvs conn (trace_of (read_n conn n st)))).
Proof.
  destruct (read_n_loop_calls conn n [] st) as (Hb & Hl & Hd).
  unfold read_n. simpl in *. rewrite Nat.sub_0_r in *. auto.
Qed.

(** ** Segmentation does not matter to [read_n] *)

(** X7. What [read_n] returns or raises depends on the bytes the stream
    delivers and on how it stops, not on how the bytes are cut into
    segments: two streams with the same bytes and the same ending give the
    same result. *)
Theorem read_n_ignores_segmentation (conn : sock) (n : nat) (st st' : state) :
  pending (rx (peer_of conn st)) = pending (rx (peer_of conn st')) ->
  ending (rx (peer_of conn st)) = ending (rx (peer_of conn st')) ->
  outcome_of (read_n conn n st) = outcome_of (read_n conn n st').
Proof.
  intros Hp He.
  destruct (Nat.le_gt_cases n (length (pending (rx (peer_of conn st)))))
    as [Hn|Hn].
  - destruct (read_n_enough _ _ Hn) as (l & ev & -> & _).
    rewrite Hp in Hn.
    destruct (read_n_enough _ _ Hn) as (l' & ev' & -> & _).
    unfold outcome_of. simpl. rewrite Hp. reflexivity.
  - destruct (ending (rx (peer_of conn st))) as [msg|] eqn:Hend.
    + destruct (read_n_failed _ _ Hn Hend) as (l & ev & -> & _).
      rewrite Hp in Hn. symmetry in He.
      destruct (read_n_failed _ _ Hn He) as (l' & ev' & -> & _).
      reflexivity.
    + destruct (read_n_closed _ _ Hn Hend) as (ev & -> & _).
      rewrite Hp in Hn. symmetry in He.
      destruct (read_n_closed _ _ Hn He) as (ev' & -> & _).
      unfold outcome_of. simpl. rewrite Hp. reflexivity.
Qed.

Lemma read_n_ignores_segmentation_witness :
  pending (rx (peer_of (Client 0)
                 (accepted split_conn (boot servers)))) =
  pending (rx (peer_of (Client 0)
                 (accepted (plain_conn [Byte.x01; Byte.x02] [Byte.x41])
                           (boot servers)))) /\
  outcome_of (read_n (Client 0) 2 (accepted split_conn (boot servers))) =
  outcome_of (read_n (Client 0) 2
                (accepted (plain_conn [Byte.x01; Byte.x02] [Byte.x41])
                          (boot servers))).
Proof.
  split; [reflexivity|].
  apply (@read_n_ignores_segmentation (Client 0) 2
           (accepted split_conn (boot servers))
           (accepted (plain_conn [Byte.x01; Byte.x02] [Byte.x41])
                     (boot servers)) eq_refl eq_refl).
Defined.

(** ** What one connection can cost *)

Lemma prefix_length {A} (l a b : list A) : l = a ++ b -> length a <= length l.
Proof. intros ->. rewrite length_app. lia. Qed.

Lemma forwarded_bounds i req st r st' ev :
  forwarded i req st (r, st', ev) ->
  length (written (Serv i) ev) <= length req /\
  length (written (Client i) ev) <= 4096 /\
  length (sockets ev) <= 1 /\
  length (connects ev) <= 1 /\
  length (recvs (Serv i) ev) <= 1 /\
  recvs (Client i) ev = [].
Proof.
  intro H.
  inversion H as [ e0 Hg
                 | a0 msg Hg Hce
                 | a0 e0 st1 ev1 Hg Hce Hs
                 | a0 st1 ev1 e0 st2 ev2 Hg Hce Hs Hr
                 | a0 st1 ev1 st2 ev2 Hg Hce Hs Hr
                 | a0 st1 ev1 b resp st2 ev2 e0 st3 ev3 Hg Hce Hs Hr Hs'
                 | a0 st1 ev1 b resp st2 ev2 st3 ev3 Hg Hce Hs Hr Hs' ];
    subst; use_calls.
  - repeat split; simpl; lia.
  - repeat split; observe; lia.
  - destruct Hpost as (msg & rest & -> & Hreq).
    apply prefix_length in Hreq.
    repeat split; observe; try lia; reflexivity.
  - subst req. repeat split; observe; try lia; reflexivity.
  - subst req. repeat split; observe; try lia; reflexivity.
  - match goal with
    | Hp : exists _ _, _ = OSError _ /\ _ |- _ =>
        destruct Hp as (msg & rest & -> & Hresp)
    end.
    match goal with
    | Hp : written (Serv i) _ = req |- _ => rewrite <- Hp
    end.
    apply prefix_length in Hresp.
    destruct (recv_rx_chunk _ _ Hchunk) as (Hle & _).
    repeat split; observe; try lia; reflexivity.
  - match goal with
    | Hp : written (Serv i) _ = req |- _ => rewrite <- Hp
    end.
    match goal with
    | Hp : written (Client i) _ = b :: resp |- _ =>
        pose proof (f_equal (@length byte) Hp) as Hlenc
    end.
    destruct (recv_rx_chunk _ _ Hchunk) as (Hle & _).
    repeat split; observe; try lia; reflexivity.
Qed.

(** X8. Whatever the client and the backends do, and whatever the cursor,
    one iteration creates at most one backend socket, attempts at most one
    connection, writes at most 2 bytes to the backend, reads from it at most
    once, writes at most 4096 bytes to the client, and reads from the client
    at most twice, asking for at most 2 bytes each time. *)
Theorem iteration_is_bounded (i : nat) (env : conn_env) (st : state) :
  length (sockets (trace_of (iteration i env st))) <= 1 /\
  length (connects (trace_of (iteration i env st))) <= 1 /\
  length (written (Serv i) (trace_of (iteration i env st))) <= 2 /\
  length (recvs (Serv i) (trace_of (iteration i env st))) <= 1 /\
  length (written (Client i) (trace_of (iteration i env st))) <= 4096 /\
  length (recvs (Client i) (trace_of (iteration i env st))) <= 2 /\
  Forall (fun p => fst p <= 2)
         (recvs (Client i) (trace_of (iteration i env st))).
Proof.
  rewrite iteration_unfold.
  pose proof (try_block_paths i (accepted env st)) as Ht.
  destruct (try_block i (accepted env st)) as [[r st'] ev].
  unfold trace_of, state_of, outcome_of. simpl fst. simpl snd.
  change (EvAccept i :: ev ++ logged r ++ [EvClose (Client i)])
    with ([EvAccept i] ++ ev ++ logged r ++ [EvClose (Client i)]).
  assert (Hread : forall st1 ev1 (rr : result bytes),
            read_n (Client i) 2 (accepted env st) = (rr, st1, ev1) ->
            length (recvs (Client i) ev1) <= 2 /\
            Forall (fun p => fst p <= 2) (recvs (Client i) ev1)).
  { intros st1 ev1 rr Hr.
    destruct (read_n_loop_calls (Client i) 2 [] (accepted env st))
      as (Hb & Hl & _).
    unfold read_n in Hr. rewrite Hr in Hb, Hl.
    unfold trace_of in *. simpl in *.
    split; [exact Hl|]. eapply Forall_impl; [|exact Hb].
    simpl. intros p Hp. lia. }
  inversion Ht as [e st1 ev1 Hr | req st1 ev1 Hr Hlen
                  | req st1 ev1 r' st2 ev2 Hr Hlen Hf]; subst;
    destruct (Hread _ _ _ Hr) as (Hl & Hb); use_calls.
  - repeat split; observe; try lia; exact Hb.
  - repeat split; observe; try lia; exact Hb.
  - destruct (forwarded_bounds Hf) as (Hs & Hc & Hso & Hco & Hre & Hrc).
    rewrite Hlen in Hs.
    destruct r; repeat split; observe; rewrite ?Hrc, ?app_nil_r;
      try lia; exact Hb.
Qed.

(** ** The exchange that goes through *)

Lemma forwarded_success i req st r st' ev a resp :
  forwarded i req st (r, st', ev) ->
  getitem (g_servers st) (rr_index st) = Ok a ->
  connect_error (network st a) = None ->
  tx_accepts (tx (backend_wire (network st a))) (length req) = true ->
  fst (recv_rx (rx (backend_wire (network st a))) 4096) = Ok resp ->
  tx_accepts (tx (client_peer st)) (length resp) = true ->
  r = Ok Normal /\
  written (Serv i) ev = req /\
  written (Client i) ev = resp /\
  closes ev = [Serv i].
Proof.
  intros H Ha Hc Htx Hresp Htc.
  inversion H as [ e0 Hg
                 | a0 msg Hg Hce
                 | a0 e0 st1 ev1 Hg Hce Hs
                 | a0 st1 ev1 e0 st2 ev2 Hg Hce Hs Hr
                 | a0 st1 ev1 st2 ev2 Hg Hce Hs Hr
                 | a0 st1 ev1 b resp0 st2 ev2 e0 st3 ev3 Hg Hce Hs Hr Hs'
                 | a0 st1 ev1 b resp0 st2 ev2 st3 ev3 Hg Hce Hs Hr Hs' ];
    subst; try congruence;
    assert (a0 = a) by congruence; subst a0; try congruence;
    use_calls; simpl in *.
  - specialize (Hacc Htx). discriminate.
  - congruence.
  - assert (resp = []) by congruence. subst resp.
    repeat split; observe; auto.
  - assert (resp = b :: resp0) by congruence. subst resp.
    match goal with
    | Hacc : _ -> Raise _ = Ok tt |- _ => specialize (Hacc Htc)
    end.
    discriminate.
  - assert (resp = b :: resp0) by congruence. subst resp.
    repeat split; observe; auto.
Qed.

(** X9. When the client delivers its request, the backend under the cursor
    is reached, takes the request and answers, and the client takes the
    answer, then the [try] block runs to its end: the backend has received
    exactly the two request bytes, the client exactly the chunk read, nothing
    is printed, and the iteration ends by closing the backend socket and
    then the client socket. *)
Theorem exchange_goes_through (i : nat) (env : conn_env) (st : state)
    (a : addr) (resp : bytes) :
  well_formed env ->
  getitem (g_servers st) (rr_index st) = Ok a ->
  connect_error (backends env a) = None ->
  tx_accepts (tx (backend_wire (backends env a))) 2 = true ->
  fst (recv_rx (rx (backend_wire (backends env a))) 4096) = Ok resp ->
  tx_accepts (tx (client_wire env)) (length resp) = true ->
  outcome_of (try_block i (accepted env st)) = Ok Normal /\
  written (Serv i) (trace_of (iteration i env st)) =
    firstn 2 (pending (rx (client_wire env))) /\
  written (Client i) (trace_of (iteration i env st)) = resp /\
  prints (trace_of (iteration i env st)) = [] /\
  closes (trace_of (iteration i env st)) = [Serv i; Client i] /\
  exists before,
    trace_of (iteration i env st) =
      before ++ [EvClose (Serv i); EvClose (Client i)].
Proof.
  intros Hwf Ha Hc Htx Hresp Htc.
  destruct (iteration_forward i st Hwf)
    as (l & evr & r & st2 & ev2 & Hq & _ & Hf & -> & ->).
  assert (Hlen : length (firstn 2 (pending (rx (client_wire env)))) = 2)
    by (rewrite length_firstn; unfold well_formed in Hwf; lia).
  rewrite <- Hlen in Htx.
  destruct (forwarded_success Hf Ha Hc Htx Hresp Htc)
    as (-> & Hws & Hwc & Hcl).
  pose proof (forwarded_prints Hf) as Hpr.
  unfold trace_of, outcome_of. simpl fst. simpl snd.
  split; [reflexivity|].
  split; [observe; exact Hws|]. split; [observe; exact Hwc|].
  split; [observe; exact Hpr|]. split; [observe; rewrite Hcl; reflexivity|].
  clear - Hf.
  assert (Hlast : exists ev', ev2 = ev' ++ [EvClose (Serv i)]).
  { inversion Hf; subst.
    - exists (opening i a ++ ev1 ++ ev0).
      rewrite <- !app_assoc. reflexivity.
    - exists (opening i a ++ ev1 ++ ev0 ++ ev3).
      rewrite <- !app_assoc. reflexivity. }
  destruct Hlast as (ev' & ->).
  exists ([EvAccept i] ++ evr ++ ev'). simpl. rewrite <- !app_assoc.
  reflexivity.
Qed.

Lemma exchange_goes_through_witness :
  well_formed trickle_conn /\
  getitem (g_servers (boot servers)) (rr_index (boot servers)) =
    Ok ("192.168.0.101"%string, 80%Z) /\
  outcome_of (try_block 0 (accepted trickle_conn (boot servers))) =
    Ok Normal /\
  written (Client 0) (trace_of (iteration 0 trickle_conn (boot servers))) =
    [Byte.x41; Byte.x42].
Proof.
  assert (Hwf : well_formed trickle_conn)
    by (unfold well_formed; simpl; lia).
  split; [exact Hwf|]. split; [reflexivity|].
  split;
    apply (@exchange_goes_through 0 trickle_conn (boot servers)
             ("192.168.0.101"%string, 80%Z) [Byte.x41; Byte.x42]
             Hwf eq_refl eq_refl eq_refl eq_refl eq_refl).
Defined.

(** ** What is printed *)

Lemma iteration_prints i env st :
  prints (trace_of (iteration i env st)) =
  prints (logged (outcome_of (try_block i (accepted env st)))).
Proof.
  rewrite iteration_unfold.
  pose proof (try_block_paths i (accepted env st)) as Ht.
  destruct (try_block i (accepted env st)) as [[r st'] ev].
  pose proof (tried_prints Ht) as Hp.
  unfold trace_of, outcome_of. simpl fst. simpl snd.
  change (EvAccept i :: ev ++ logged r ++ [EvClose (Client i)])
    with ([EvAccept i] ++ ev ++ logged r ++ [EvClose (Client i)]).
  rewrite !prints_app, Hp. simpl. rewrite app_nil_r. reflexivity.
Qed.

Lemma tried_raise i st e st' ev :
  tried i st (Raise e, st', ev) ->
  (e = IndexError /\ getitem (g_servers st) (rr_index st) = Raise IndexError)
  \/ exists msg, e = OSError msg.
Proof.
  intro H.
  inversion H as [e0 st1 ev1 Hr | req st1 ev1 Hr Hlen
                 | req st1 ev1 r' st2 ev2 Hr Hlen Hf]; subst.
  - right. use_calls. destruct Hpost as (msg & -> & _). eauto.
  - destruct (forwarded_raise Hf) as [[-> Hg] | [msg ->]].
    + left. use_calls. simpl in Hg. auto.
    + right. eauto.
Qed.

(** What one iteration prints: nothing, or one error line. *)
Lemma iteration_prints_form i env st :
  one_error_at_most (prints (trace_of (iteration i env st))).
Proof.
  rewrite iteration_prints.
  pose proof (try_block_paths i (accepted env st)) as Ht.
  destruct (try_block i (accepted env st)) as [[[c|e] st'] ev];
    unfold outcome_of; simpl.
  - split; [simpl; lia | constructor].
  - split; [simpl; lia|]. constructor; [|constructor].
    destruct (tried_raise Ht) as [[-> _] | [msg ->]].
    + left. reflexivity.
    + right. exists msg. reflexivity.
Qed.

Lemma accept_loop_prints envs : forall i st,
  Forall error_line (prints (trace_of (accept_loop i envs st))) /\
  length (prints (trace_of (accept_loop i envs st))) <= length envs.
Proof.
  induction envs as [|env envs IH]; intros i st.
  - simpl. split; [constructor | lia].
  - rewrite accept_loop_cons, trace_of_prepend, prints_app.
    destruct (IH (S i) (state_of (iteration i env st))) as (IHf & IHl).
    destruct (iteration_prints_form i env st) as (Hl & Hf).
    rewrite length_app. simpl length. split.
    + apply Forall_app. split; assumption.
    + lia.
Qed.

Lemma one_error_at_most_prefix tr1 tr2 :
  one_error_at_most (prints (tr1 ++ tr2)) -> one_error_at_most (prints tr1).
Proof.
  unfold one_error_at_most. rewrite prints_app, length_app.
  intros [Hl Hf]. apply Forall_app in Hf. split; [lia | apply Hf].
Qed.

(** The trace of the accept loop is empty or starts with an accept. *)
Lemma accept_loop_head envs i st :
  trace_of (accept_loop i envs st) = [] \/
  exists tl, trace_of (accept_loop i envs st) = EvAccept i :: tl.
Proof.
  destruct envs as [|env envs].
  - left. reflexivity.
  - right. rewrite accept_loop_cons, trace_of_prepend.
    destruct (iteration_trace_shape i env st) as (body & _ & ->).
    simpl. eauto.
Qed.

Lemma per_connection_output_after hd tr :
  accepts hd = [] ->
  per_connection_output tr ->
  per_connection_output (hd ++ tr).
Proof.
  intros Hhd Htr pre j mid post Heq Hmid.
  symmetry in Heq. apply app_eq_app in Heq.
  destruct Heq as [l [[Hp Ht] | [Hh Ht]]].
  - eapply (Htr l); [exact Ht | exact Hmid].
  - destruct l as [|e l].
    + simpl in Ht. eapply (Htr []); [symmetry; exact Ht | exact Hmid].
    + simpl in Ht. inversion Ht; subst.
      rewrite accepts_app in Hhd. simpl in Hhd.
      apply app_eq_nil in Hhd. destruct Hhd as [_ Hhd]. discriminate.
Qed.

Lemma per_connection_output_cons i rest tr :
  accepts rest = [] ->
  one_error_at_most (prints rest) ->
  (tr = [] \/ exists k tl, tr = EvAccept k :: tl) ->
  per_connection_output tr ->
  per_connection_output ((EvAccept i :: rest) ++ tr).
Proof.
  intros Hrest Hgood Hhead Htr pre j mid post Heq Hmid.
  destruct pre as [|e pre].
  - (* the accept of this connection *)
    simpl in Heq. inversion Heq as [[Hj Hsplit]]. clear Heq.
    apply app_eq_app in Hsplit.
    destruct Hsplit as [l [[Hr Hp] | [Hm Ht]]].
    + (* [mid] lies within this connection *)
      rewrite Hr in Hgood. eapply one_error_at_most_prefix. exact Hgood.
    + (* [mid] goes on into the rest of the trace *)
      destruct l as [|e l].
      * rewrite app_nil_r in Hm. subst mid. exact Hgood.
      * exfalso. subst mid. rewrite accepts_app in Hmid.
        apply app_eq_nil in Hmid. destruct Hmid as [_ Hl].
        destruct Hhead as [-> | (k & tl & ->)]; [discriminate Ht|].
        simpl in Ht. inversion Ht; subst. discriminate Hl.
  - (* a later accept *)
    simpl in Heq. inversion Heq as [[He Hsplit]]. clear Heq.
    symmetry in Hsplit. apply app_eq_app in Hsplit.
    destruct Hsplit as [l [[Hp Ht] | [Hr Ht]]].
    + eapply (Htr l); [exact Ht | exact Hmid].
    + destruct l as [|e' l].
      * simpl in Ht. eapply (Htr []); [symmetry; exact Ht | exact Hmid].
      * exfalso. simpl in Ht. inversion Ht; subst.
        rewrite accepts_app in Hrest. simpl in Hrest.
        apply app_eq_nil in Hrest. destruct Hrest as [_ Hrest].
        discriminate Hrest.
Qed.

Lemma accept_loop_per_connection envs : forall i st,
  per_connection_output (trace_of (accept_loop i envs st)).
Proof.
  induction envs as [|env envs IH]; intros i st.
  - simpl. intros pre j mid post Heq. destruct pre; discriminate.
  - rewrite accept_loop_cons, trace_of_prepend.
    pose proof (iteration_prints_form i env st) as Hgood.
    destruct (iteration_trace_shape i env st) as (body & Hb & Heq).
    rewrite Heq in *.
    apply per_connection_output_cons.
    + rewrite accepts_app, Hb. reflexivity.
    + exact Hgood.
    + destruct (accept_loop_head envs (S i) (state_of (iteration i env st)))
        as [-> | (tl & ->)]; eauto.
    + apply IH.
Qed.

(** X11. The output of a run is the banner of line 26 followed by error
    lines only: each is either "[LB] Error: list index out of range" or
    "[LB] Error: " followed by the message of a socket error.  There are no
    more error lines than connections, and among the calls made for one
    connection, between its accept and the next, at most one line is
    printed. *)
Theorem output_is_banner_then_errors (srv : list addr)
    (envs : list conn_env) :
  (exists errors,
     prints (trace_of (run srv envs)) =
       "[LB] Listening on 0.0.0.0:80"%string :: errors /\
     Forall error_line errors /\
     length errors <= length envs) /\
  per_connection_output (trace_of (run srv envs)) /\
  (forall pre j post,
     trace_of (run srv envs) = pre ++ EvAccept j :: post ->
     accepts pre = [] ->
     prints pre = ["[LB] Listening on 0.0.0.0:80"%string]).
Proof.
  rewrite run_unfold, trace_of_prepend. split; [|split].
  - rewrite prints_app.
    exists (prints (trace_of (accept_loop 0 envs (boot srv)))).
    split; [reflexivity|]. apply accept_loop_prints.
  - apply per_connection_output_after; [reflexivity|].
    apply accept_loop_per_connection.
  - intros pre j post Heq Hpre.
    symmetry in Heq. apply app_eq_app in Heq.
    destruct Heq as [l [[Hp Ht] | [Hh Ht]]].
    + subst pre.
      destruct (accept_loop_head envs 0 (boot srv)) as [Hnil | (tl & Htl)].
      * rewrite Hnil in Ht. destruct l; discriminate Ht.
      * rewrite Htl in Ht. destruct l as [|e l].
        -- rewrite app_nil_r. reflexivity.
        -- simpl in Ht. inversion Ht; subst.
           rewrite accepts_app in Hpre. simpl in Hpre. discriminate Hpre.
    + destruct l as [|e l].
      * rewrite app_nil_r in Hh. subst pre. reflexivity.
      * simpl in Ht. inversion Ht; subst.
        destruct pre as [|e1 [|e2 pre]]; simpl in Hh; inversion Hh; subst.
        destruct pre; discriminate.
Qed.

Lemma output_is_banner_then_errors_witness :
  trace_of (run servers mixed_clients) =
    firstn 7 (trace_of (run servers mixed_clients)) ++
    EvAccept 1 ::
      firstn 7 (skipn 8 (trace_of (run servers mixed_clients))) ++
      skipn 15 (trace_of (run servers mixed_clients)) /\
  accepts (firstn 7 (skipn 8 (trace_of (run servers mixed_clients)))) = [] /\
  prints (firstn 7 (skipn 8 (trace_of (run servers mixed_clients)))) =
    ["[LB] Error: reset"%string] /\
  one_error_at_most
    (prints (firstn 7 (skipn 8 (trace_of (run servers mixed_clients))))).
Proof.
  assert (H : trace_of (run servers mixed_clients) =
              firstn 7 (trace_of (run servers mixed_clients)) ++
              EvAccept 1 ::
                firstn 7 (skipn 8 (trace_of (run servers mixed_clients))) ++
                skipn 15 (trace_of (run servers mixed_clients)))
    by (vm_compute; reflexivity).
  assert (Ha : accepts (firstn 7 (skipn 8 (trace_of (run servers
                                                       mixed_clients)))) = [])
    by (vm_compute; reflexivity).
  split; [exact H|]. split; [exact Ha|].
  split; [vm_compute; reflexivity|].
  exact (proj1 (proj2 (output_is_banner_then_errors servers mixed_clients))
           _ _ _ _ H Ha).
Defined.

(** ** The backend socket, in general *)

(** X2. For a client that delivers its request under a valid cursor, the
    backend socket is always created, and it is closed exactly when the
    [try] block runs to its end: the closes of the iteration are the backend
    socket and then the client after a block that completes, and the client
    alone after a block that raises. *)
Theorem backend_socket_closed_iff_block_completes (i : nat) (env : conn_env)
    (st : state) (a : addr) :
  well_formed env ->
  getitem (g_servers st) (rr_index st) = Ok a ->
  sockets (trace_of (iteration i env st)) = [Serv i] /\
  closes (trace_of (iteration i env st)) =
    match outcome_of (try_block i (accepted env st)) with
    | Ok _ => [Serv i; Client i]
    | Raise _ => [Client i]
    end.
Proof.
  intros Hwf Ha. split.
  - apply (iteration_admitted i st Hwf Ha).
  - apply backend_closed_only_on_success. exact Hwf.
Qed.

Lemma backend_socket_closed_iff_block_completes_witness :
  well_formed refused_conn /\
  getitem (g_servers (boot servers)) (rr_index (boot servers)) =
    Ok ("192.168.0.101"%string, 80%Z) /\
  sockets (trace_of (iteration 0 refused_conn (boot servers))) = [Serv 0] /\
  closes (trace_of (iteration 0 refused_conn (boot servers))) = [Client 0].
Proof.
  assert (Hwf : well_formed refused_conn)
    by (unfold well_formed; simpl; lia).
  split; [exact Hwf|]. split; [reflexivity|].
  apply (@backend_socket_closed_iff_block_completes 0 refused_conn
           (boot servers) ("192.168.0.101"%string, 80%Z) Hwf eq_refl).
Defined.

(** ** Failures stay within their connection *)



